(** * FinSmart investment projection engine

    A shallow embedding of the projection functions of
    [investment_calculator.py], and of the numeric part of the tabs that call
    them, with the properties of their growth series.

    Numbers.  The Python code computes on IEEE doubles; here every float is
    read as the real number it approximates, so [+ - * /] are the field
    operations of [R] and rounding, overflow and NaN are not modelled.  What
    the code does on exceptional paths is kept: a float division by zero
    raises [ZeroDivisionError], [np.zeros] of a negative size raises
    [ValueError], an array access outside the array raises [IndexError].

    Powers.  [x ** (1/12)] is [Rpower x (1/12)], which is Python's value for a
    positive base [x]; every statement about the monthly rate assumes an
    annual rate [>= 0], so the base is at least 1.  [x ** k] with an integer
    exponent is [x ^ k] (loop indices) or [powerRZ x k] (Python ints). *)

From Stdlib Require Import Reals Lra Lia ZArith.
From stdpp Require Import base list.

Open Scope R_scope.

(** ** Exceptions and the error monad *)

Inductive exn : Set :=
  | ZeroDivisionError
  | ValueError
  | IndexError.

Inductive result (A : Type) : Type :=
  | Ok (a : A)
  | Raise (e : exn).
Arguments Ok {A} a.
Arguments Raise {A} e.

Definition bind {A B : Type} (m : result A) (k : A -> result B) : result B :=
  match m with
  | Ok a => k a
  | Raise e => Raise e
  end.

Notation "'let*' x ':=' m 'in' k" := (bind m (fun x => k))
  (at level 10, x pattern, m at level 100, k at level 200).

(** [for i in items: s = body(i, s)], stopping at the first exception. *)
Fixpoint for_each {I S : Type} (body : I -> S -> result S) (items : list I) (s : S)
  : result S :=
  match items with
  | [] => Ok s
  | i :: items' => let* s' := body i s in for_each body items' s'
  end.

(** ** Python and numpy primitives *)

(** Float division [x / y]. *)
Definition py_div (x y : R) : result R :=
  if Req_dec_T y 0 then Raise ZeroDivisionError else Ok (x / y).

(** [range(n)] for a Python int [n]: empty when [n <= 0]. *)
Definition py_range (n : Z) : list nat := seq 0 (Z.to_nat n).

(** [np.zeros(n)]. *)
Definition np_zeros (n : Z) : result (list R) :=
  if (n <? 0)%Z then Raise ValueError else Ok (replicate (Z.to_nat n) 0).

(** [a[i]] for a non-negative index. *)
Definition np_get (a : list R) (i : nat) : result R :=
  match a !! i with
  | Some x => Ok x
  | None => Raise IndexError
  end.

(** [a[i] = v] for a non-negative index. *)
Definition np_set (a : list R) (i : nat) (v : R) : result (list R) :=
  if decide (i < length a)%nat then Ok (<[i:=v]> a) else Raise IndexError.

(** ** The engine *)

(** [(1 + annual_return_rate/100) ** (1/12) - 1] *)
Definition monthly_rate_of (annual_return_rate : R) : R :=
  Rpower (1 + annual_return_rate / 100) (1 / 12) - 1.

(** The frame returned by [calculate_sip_returns], one list per column; the
    columns handed to [pd.DataFrame] always have the same length. *)
Module SipFrame.
Record t : Type := mk {
  Month : list Z;
  Total_Investment : list R;
  Investment_Value : list R
}.
End SipFrame.

(** The two arrays the SIP loop fills. *)
Record sip_arrays : Type := SipArrays {
  sa_total_investment : list R;
  sa_investment_value : list R
}.

(** Body of [for month in range(total_months)] in [calculate_sip_returns]. *)
Definition sip_body (monthly_investment monthly_rate : R)
    (month : nat) (st : sip_arrays) : result sip_arrays :=
  let '(SipArrays total_investment investment_value) := st in
  if (month =? 0)%nat then
    let* total_investment := np_set total_investment month monthly_investment in
    let* investment_value := np_set investment_value month monthly_investment in
    Ok (SipArrays total_investment investment_value)
  else
    let* prev_total := np_get total_investment (month - 1) in
    let* total_investment :=
      np_set total_investment month (prev_total + monthly_investment) in
    let* prev_value := np_get investment_value (month - 1) in
    let* investment_value :=
      np_set investment_value month
        (prev_value * (1 + monthly_rate) + monthly_investment) in
    Ok (SipArrays total_investment investment_value).

Definition calculate_sip_returns
    (monthly_investment annual_return_rate : R) (time_years : Z)
  : result SipFrame.t :=
  let monthly_rate := monthly_rate_of annual_return_rate in
  let total_months := (time_years * 12)%Z in
  let* total_investment := np_zeros total_months in
  let* investment_value := np_zeros total_months in
  let* st := for_each (sip_body monthly_investment monthly_rate)
               (py_range total_months)
               (SipArrays total_investment investment_value) in
  Ok (SipFrame.mk (seqZ 1 total_months)
        (sa_total_investment st) (sa_investment_value st)).

(** The frame returned by [calculate_lumpsum_returns]. *)
Module LumpsumFrame.
Record t : Type := mk {
  Year : list Z;
  Investment_Value : list R
}.
End LumpsumFrame.

(** Body of [for i, year in enumerate(years)]. *)
Definition lumpsum_body (investment_amount annual_return_rate : R)
    (item : nat * Z) (investment_value : list R) : result (list R) :=
  let '(i, year) := item in
  np_set investment_value i
    (investment_amount * powerRZ (1 + annual_return_rate / 100) year).

Definition calculate_lumpsum_returns
    (investment_amount annual_return_rate : R) (time_years : Z)
  : result LumpsumFrame.t :=
  let years := seqZ 0 (time_years + 1) in
  let* investment_value := np_zeros (Z.of_nat (length years)) in
  let* investment_value :=
    for_each (lumpsum_body investment_amount annual_return_rate)
      (imap pair years) investment_value in
  Ok (LumpsumFrame.mk years investment_value).

Definition calculate_goal_based_sip
    (target_amount annual_return_rate : R) (time_years : Z) : result R :=
  let monthly_rate := monthly_rate_of annual_return_rate in
  let total_months := (time_years * 12)%Z in
  let* annuity :=
    py_div (powerRZ (1 + monthly_rate) total_months - 1) monthly_rate in
  let* quotient := py_div target_amount annuity in
  py_div quotient (1 + monthly_rate).

(** The frame returned by [calculate_step_up_sip]. *)
Module StepUpFrame.
Record t : Type := mk {
  Month : list Z;
  Monthly_SIP : list R;
  Total_Investment : list R;
  Investment_Value : list R
}.
End StepUpFrame.

(** The three arrays the step-up loop fills. *)
Record stepup_arrays : Type := StepUpArrays {
  su_monthly_investment : list R;
  su_total_investment : list R;
  su_investment_value : list R
}.

(** Body of [for month in range(total_months)] in [calculate_step_up_sip]. *)
Definition step_up_body
    (initial_monthly_investment annual_step_up_rate monthly_rate : R)
    (month : nat) (st : stepup_arrays) : result stepup_arrays :=
  let '(StepUpArrays monthly_investment total_investment investment_value) := st in
  let year := (month / 12)%nat in
  let* current_monthly_sip :=
    if ((month mod 12 =? 0) && (0 <? month))%nat then
      Ok (initial_monthly_investment * (1 + annual_step_up_rate / 100) ^ year)
    else if (month =? 0)%nat then
      Ok initial_monthly_investment
    else
      np_get monthly_investment (month - 1) in
  let* monthly_investment := np_set monthly_investment month current_monthly_sip in
  if (month =? 0)%nat then
    let* total_investment := np_set total_investment month current_monthly_sip in
    let* investment_value := np_set investment_value month current_monthly_sip in
    Ok (StepUpArrays monthly_investment total_investment investment_value)
  else
    let* prev_total := np_get total_investment (month - 1) in
    let* total_investment :=
      np_set total_investment month (prev_total + current_monthly_sip) in
    let* prev_value := np_get investment_value (month - 1) in
    let* investment_value :=
      np_set investment_value month
        (prev_value * (1 + monthly_rate) + current_monthly_sip) in
    Ok (StepUpArrays monthly_investment total_investment investment_value).

Definition calculate_step_up_sip
    (initial_monthly_investment annual_step_up_rate annual_return_rate : R)
    (time_years : Z) : result StepUpFrame.t :=
  let monthly_rate := monthly_rate_of annual_return_rate in
  let total_months := (time_years * 12)%Z in
  let* monthly_investment := np_zeros total_months in
  let* total_investment := np_zeros total_months in
  let* investment_value := np_zeros total_months in
  let* st :=
    for_each
      (step_up_body initial_monthly_investment annual_step_up_rate monthly_rate)
      (py_range total_months)
      (StepUpArrays monthly_investment total_investment investment_value) in
  Ok (StepUpFrame.mk (seqZ 1 total_months)
        (su_monthly_investment st) (su_total_investment st)
        (su_investment_value st)).

Definition calculate_retirement_corpus
    (monthly_expenses : R) (life_expectancy retirement_age : Z)
    (inflation_rate : R) : R :=
  let current_age := retirement_age in
  let retirement_duration := (life_expectancy - retirement_age)%Z in
  let monthly_expenses_at_retirement :=
    monthly_expenses *
    powerRZ (1 + inflation_rate / 100) (retirement_age - current_age) in
  let annual_expenses_at_retirement := monthly_expenses_at_retirement * 12 in
  let retirement_corpus := annual_expenses_at_retirement * 25 in
  retirement_corpus.

(** [real_return_rate] as computed in the SIP and lump-sum tabs of
    [show_investment_calculator]. *)
Definition real_return_rate (annual_return_rate inflation_rate : R) : result R :=
  let* ratio := py_div (1 + annual_return_rate / 100) (1 + inflation_rate / 100) in
  Ok (ratio - 1).

(** ** Closed forms of the series

    The values the loops store at index [i] (period [i + 1]); they serve as
    loop invariants below. *)

Fixpoint sip_total (c : R) (i : nat) : R :=
  match i with
  | O => c
  | S j => sip_total c j + c
  end.

Fixpoint sip_value (c m : R) (i : nat) : R :=
  match i with
  | O => c
  | S j => sip_value c m j * (1 + m) + c
  end.

(** The contribution active at index [i] of the step-up schedule. *)
Definition stepup_sip (c0 s : R) (i : nat) : R :=
  c0 * (1 + s / 100) ^ (i / 12).

Fixpoint stepup_total (c0 s : R) (i : nat) : R :=
  match i with
  | O => stepup_sip c0 s 0
  | S j => stepup_total c0 s j + stepup_sip c0 s (S j)
  end.

Fixpoint stepup_value (c0 s m : R) (i : nat) : R :=
  match i with
  | O => stepup_sip c0 s 0
  | S j => stepup_value c0 s m j * (1 + m) + stepup_sip c0 s (S j)
  end.

(** The value the lump-sum loop stores at index [k] (year [k]). *)
Definition lumpsum_value (p r : R) (k : nat) : R :=
  p * powerRZ (1 + r / 100) (Z.of_nat k).

(** An array of size [n] whose first [k] cells hold [f 0 .. f (k-1)] and
    whose other cells still hold the zeros of [np.zeros]. *)
Definition filled (f : nat -> R) (n k : nat) : list R :=
  map f (seq 0 k) ++ replicate (n - k) 0.

(** ** The tabs of [show_investment_calculator]

    The numeric part of each tab, in the order the tab computes it.  Values
    read from a frame are numpy floats, whose division does not raise; the
    divisions below that can raise are the ones on plain Python floats. *)

(** [series.iloc[-1]] *)
Definition iloc_last (series : list R) : result R :=
  match last series with
  | Some x => Ok x
  | None => Raise IndexError
  end.

(** [series.iloc[i]] for a non-negative position. *)
Definition iloc (series : list R) (i : nat) : result R :=
  match series !! i with
  | Some x => Ok x
  | None => Raise IndexError
  end.

(** SIP tab: the summary metrics. *)
Record sip_summary : Type := SipSummary {
  ss_total_invested : R;
  ss_final_value : R;
  ss_wealth_gained : R;
  ss_real_return_rate : R;
  ss_inflation_adj_final : R
}.

Definition sip_tab_summary
    (monthly_investment annual_return_rate : R) (time_years : Z)
    (inflation_rate : R) : result sip_summary :=
  let* sip_results :=
    calculate_sip_returns monthly_investment annual_return_rate time_years in
  let total_invested := monthly_investment * IZR time_years * 12 in
  let* final_value := iloc_last (SipFrame.Investment_Value sip_results) in
  let wealth_gained := final_value - total_invested in
  let* real_return_rate := real_return_rate annual_return_rate inflation_rate in
  let* annuity :=
    py_div (powerRZ (1 + real_return_rate) (time_years * 12) - 1)
      real_return_rate in
  let inflation_adj_final :=
    monthly_investment * annuity * (1 + real_return_rate) in
  Ok (SipSummary total_invested final_value wealth_gained real_return_rate
        inflation_adj_final).

(** SIP tab: body of [for month in range(1, time_years * 12 + 1)] that
    builds the inflation-adjusted line. *)
Definition sip_inflation_adj_body (investment_value : list R) (inflation_rate : R)
    (month : nat) (inflation_adj_values : list R) : result (list R) :=
  let inflation_factor := Rpower (1 + inflation_rate / 100) (INR month / 12) in
  let* value := iloc investment_value (month - 1) in
  let inflation_adj_value := value / inflation_factor in
  Ok (inflation_adj_values ++ [inflation_adj_value]).

Definition sip_inflation_adj_values (investment_value : list R)
    (inflation_rate : R) (time_years : Z) : result (list R) :=
  for_each (sip_inflation_adj_body investment_value inflation_rate)
    (seq 1 (Z.to_nat (time_years * 12))) [].

(** Lump-sum tab: the summary metrics. *)
Record lumpsum_summary : Type := LumpsumSummary {
  ls_final_value : R;
  ls_wealth_gained : R;
  ls_real_return_rate : R;
  ls_inflation_adj_final : R
}.

Definition lumpsum_tab_summary
    (investment_amount annual_return_rate : R) (time_years : Z)
    (inflation_rate : R) : result lumpsum_summary :=
  let* lumpsum_results :=
    calculate_lumpsum_returns investment_amount annual_return_rate time_years in
  let initial_investment := investment_amount in
  let* final_value := iloc_last (LumpsumFrame.Investment_Value lumpsum_results) in
  let wealth_gained := final_value - initial_investment in
  let* real_return_rate := real_return_rate annual_return_rate inflation_rate in
  let inflation_adj_final :=
    initial_investment * powerRZ (1 + real_return_rate) time_years in
  Ok (LumpsumSummary final_value wealth_gained real_return_rate
        inflation_adj_final).

(** Lump-sum tab: body of [for year in range(time_years + 1)]. *)
Definition lumpsum_inflation_adj_body (investment_value : list R)
    (inflation_rate : R) (year : nat) (inflation_adj_values : list R)
  : result (list R) :=
  let inflation_factor := (1 + inflation_rate / 100) ^ year in
  let* value := iloc investment_value year in
  let inflation_adj_value := value / inflation_factor in
  Ok (inflation_adj_values ++ [inflation_adj_value]).

Definition lumpsum_inflation_adj_values (investment_value : list R)
    (inflation_rate : R) (time_years : Z) : result (list R) :=
  for_each (lumpsum_inflation_adj_body investment_value inflation_rate)
    (py_range (time_years + 1)) [].

(** Goal tab. *)
Record goal_summary : Type := GoalSummary {
  gs_inflation_adjusted_target : R;
  gs_monthly_sip : R;
  gs_total_investment : R;
  gs_wealth_gained : R;
  gs_sip_results : SipFrame.t
}.

Definition goal_tab_summary
    (target_amount annual_return_rate : R) (time_years : Z)
    (inflation_rate : R) : result goal_summary :=
  let inflation_adjusted_target :=
    target_amount * powerRZ (1 + inflation_rate / 100) time_years in
  let* monthly_sip :=
    calculate_goal_based_sip inflation_adjusted_target annual_return_rate
      time_years in
  let total_investment := monthly_sip * 12 * IZR time_years in
  let wealth_gained :=
    inflation_adjusted_target - monthly_sip * 12 * IZR time_years in
  let* sip_results :=
    calculate_sip_returns monthly_sip annual_return_rate time_years in
  Ok (GoalSummary inflation_adjusted_target monthly_sip total_investment
        wealth_gained sip_results).

(** Step-up tab: the summary metrics and the comparison with a regular SIP. *)
Record stepup_summary : Type := StepUpSummary {
  sus_total_invested : R;
  sus_final_value : R;
  sus_wealth_gained : R;
  sus_regular_total_invested : R;
  sus_regular_final_value : R
}.

Definition step_up_tab_summary
    (initial_monthly_investment annual_step_up_rate annual_return_rate : R)
    (time_years : Z) : result stepup_summary :=
  let* stepup_results :=
    calculate_step_up_sip initial_monthly_investment annual_step_up_rate
      annual_return_rate time_years in
  let* regular_results :=
    calculate_sip_returns initial_monthly_investment annual_return_rate
      time_years in
  let* total_invested := iloc_last (StepUpFrame.Total_Investment stepup_results) in
  let* final_value := iloc_last (StepUpFrame.Investment_Value stepup_results) in
  let wealth_gained := final_value - total_invested in
  let* regular_total_invested :=
    iloc_last (SipFrame.Total_Investment regular_results) in
  let* regular_final_value :=
    iloc_last (SipFrame.Investment_Value regular_results) in
  Ok (StepUpSummary total_invested final_value wealth_gained
        regular_total_invested regular_final_value).

(** Education tab: one row of the rate comparison. *)
Record comparison_row : Type := ComparisonRow {
  Rate : R;
  Final_Value : R;
  Total_Invested : R;
  Wealth_Gained : R
}.

(** Body of [for rate in return_rates]. *)
Definition compare_body (compare_amount : R) (compare_years : Z)
    (rate : R) (results : list comparison_row) : result (list comparison_row) :=
  let* sip_results := calculate_sip_returns compare_amount rate compare_years in
  let* final_value := iloc_last (SipFrame.Investment_Value sip_results) in
  let total_invested := compare_amount * IZR compare_years * 12 in
  Ok (results ++
      [ComparisonRow rate final_value total_invested (final_value - total_invested)]).

Definition compare_investment_growth (compare_amount : R) (compare_years : Z)
  : result (list comparison_row) :=
  let return_rates := [8; 12; 15] in
  for_each (compare_body compare_amount compare_years) return_rates [].

(** SIP tab: the rows of the "detailed growth data" table, one per row of
    [sip_results] whose [Month] is a multiple of 12. *)
Module YearlyRow.
Record t : Type := mk {
  Year : Z;
  Total_Investment : R;
  Investment_Value : R;
  Wealth_Gained : R;
  Returns_Percentage : R
}.
End YearlyRow.

Definition sip_yearly_data (sip_results : SipFrame.t) : list YearlyRow.t :=
  let rows :=
    zip (SipFrame.Month sip_results)
      (zip (SipFrame.Total_Investment sip_results)
         (SipFrame.Investment_Value sip_results)) in
  let yearly_data := filter (fun row => (row.1 mod 12 = 0)%Z) rows in
  (fun '(month, (total_investment, investment_value)) =>
     let year := (month / 12)%Z in
     let wealth_gained := investment_value - total_investment in
     YearlyRow.mk year total_investment investment_value wealth_gained
       (wealth_gained / total_investment * 100)) <$> yearly_data.

(** ** Lemmas on the primitives *)

Lemma bind_Ok {A B : Type} (a : A) (k : A -> result B) : bind (Ok a) k = k a.
Proof. reflexivity. Qed.

Lemma for_each_app {I S : Type} (body : I -> S -> result S) (l1 l2 : list I) (s : S) :
  for_each body (l1 ++ l2) s =
  let* s' := for_each body l1 s in for_each body l2 s'.
Proof.
  revert s. induction l1 as [|i l1 IH]; intros s; simpl; [done|].
  destruct (body i s) as [s'|e]; simpl; [apply IH | done].
Qed.

Lemma for_each_snoc {I S : Type} (body : I -> S -> result S) (l : list I) (i : I) (s : S) :
  for_each body (l ++ [i]) s = let* s' := for_each body l s in body i s'.
Proof.
  rewrite for_each_app. destruct (for_each body l s) as [s'|e]; simpl; [|done].
  by destruct (body i s').
Qed.

Lemma py_div_Ok (x y : R) : y <> 0 -> py_div x y = Ok (x / y).
Proof. intros Hy. unfold py_div. by destruct (Req_dec_T y 0). Qed.

Lemma py_div_zero (x : R) : py_div x 0 = Raise ZeroDivisionError.
Proof. unfold py_div. by destruct (Req_dec_T 0 0). Qed.

Lemma np_zeros_Ok (n : Z) : (0 <= n)%Z -> np_zeros n = Ok (replicate (Z.to_nat n) 0).
Proof.
  intros Hn. unfold np_zeros.
  destruct (Z.ltb_spec n 0); [lia | done].
Qed.

Lemma filled_0 (f : nat -> R) (n : nat) : filled f n 0 = replicate n 0.
Proof. unfold filled. simpl. by rewrite Nat.sub_0_r. Qed.

Lemma filled_all (f : nat -> R) (n : nat) : filled f n n = map f (seq 0 n).
Proof. unfold filled. rewrite Nat.sub_diag. simpl. by rewrite app_nil_r. Qed.

Lemma length_filled (f : nat -> R) (n k : nat) : (k <= n)%nat -> length (filled f n k) = n.
Proof.
  intros Hk. unfold filled.
  rewrite length_app, length_map, length_seq, length_replicate. lia.
Qed.

Lemma lookup_map_seq_0 (f : nat -> R) (n i : nat) :
  (i < n)%nat -> map f (seq 0 n) !! i = Some (f i).
Proof.
  intros Hi. change (map f (seq 0 n)) with (f <$> seq 0 n).
  rewrite list_lookup_fmap, lookup_seq_lt by done. done.
Qed.

Lemma np_get_filled (f : nat -> R) (n k i : nat) :
  (i < k)%nat -> np_get (filled f n k) i = Ok (f i).
Proof.
  intros Hi. unfold np_get, filled.
  rewrite lookup_app_l by (rewrite length_map, length_seq; lia).
  by rewrite lookup_map_seq_0.
Qed.

Lemma np_set_filled (f : nat -> R) (n k : nat) (v : R) :
  (k < n)%nat -> v = f k -> np_set (filled f n k) k v = Ok (filled f n (S k)).
Proof.
  intros Hk ->. unfold np_set.
  rewrite length_filled by lia.
  destruct (decide (k < n)%nat) as [_|]; [|lia].
  f_equal. unfold filled.
  replace (n - k)%nat with (S (n - S k)) by lia.
  rewrite seq_S, map_app. simpl.
  rewrite <- app_assoc. simpl.
  rewrite insert_app_r_alt by (rewrite length_map, length_seq; lia).
  rewrite length_map, length_seq, Nat.sub_diag. done.
Qed.

(** ** The SIP loop *)

Lemma sip_loop (c m : R) (n k : nat) :
  (k <= n)%nat ->
  for_each (sip_body c m) (seq 0 k) (SipArrays (replicate n 0) (replicate n 0)) =
  Ok (SipArrays (filled (sip_total c) n k) (filled (sip_value c m) n k)).
Proof.
  induction k as [|k IH]; intros Hk.
  - simpl. by rewrite !filled_0.
  - rewrite seq_S, for_each_snoc, IH by lia. simpl.
    unfold sip_body. destruct k as [|j]; simpl.
    + rewrite !np_set_filled by (done || lia). done.
    + rewrite Nat.sub_0_r.
      rewrite !np_get_filled by lia. simpl.
      rewrite (np_set_filled (sip_total c)) by (done || lia). simpl.
      rewrite (np_set_filled (sip_value c m)) by (done || lia). done.
Qed.

(** For a non-negative duration the call returns, and its columns are the
    closed forms. *)
Lemma calculate_sip_returns_Ok (c r : R) (y : Z) :
  (0 <= y)%Z ->
  calculate_sip_returns c r y =
  Ok (SipFrame.mk (seqZ 1 (y * 12))
        (map (sip_total c) (seq 0 (Z.to_nat (y * 12))))
        (map (sip_value c (monthly_rate_of r)) (seq 0 (Z.to_nat (y * 12))))).
Proof.
  intros Hy. unfold calculate_sip_returns, py_range.
  rewrite np_zeros_Ok by lia. simpl.
  rewrite sip_loop by done. simpl.
  by rewrite !filled_all.
Qed.

Lemma sip_total_closed (c : R) (i : nat) : sip_total c i = INR (S i) * c.
Proof.
  induction i as [|i IH]; [simpl; lra|].
  change (sip_total c (S i)) with (sip_total c i + c).
  rewrite IH, (S_INR (S i)). lra.
Qed.

(** ** Periodic Investment Simulator *)

(** C3.  For a contribution [c > 0], an annual rate [r >= 0] and a duration
    of [y >= 1] years, [calculate_sip_returns c r y] returns a frame of
    exactly [12 * y] rows numbered [1 .. 12 * y].  With
    [m = (1 + r/100) ** (1/12) - 1], the first row has contributed = value =
    [c], and every later row (index [n >= 1], period [n + 1]) has contributed
    = previous contributed + [c] and value = previous value * (1 + m) + [c]. *)
Theorem sip_returns_series (c r : R) (y : Z) :
  0 < c -> 0 <= r -> (1 <= y)%Z ->
  exists df, calculate_sip_returns c r y = Ok df /\
    let m := Rpower (1 + r / 100) (1 / 12) - 1 in
    let contributed := SipFrame.Total_Investment df in
    let value := SipFrame.Investment_Value df in
    SipFrame.Month df = seqZ 1 (12 * y) /\
    Z.of_nat (length contributed) = (12 * y)%Z /\
    Z.of_nat (length value) = (12 * y)%Z /\
    contributed !! 0%nat = Some c /\
    value !! 0%nat = Some c /\
    forall n : nat, (1 <= n)%nat -> (Z.of_nat n < 12 * y)%Z ->
      exists a b,
        contributed !! (n - 1)%nat = Some a /\
        value !! (n - 1)%nat = Some b /\
        contributed !! n = Some (a + c) /\
        value !! n = Some (b * (1 + m) + c).
Proof.
  intros _ _ Hy. eexists. split; [apply calculate_sip_returns_Ok; lia|].
  simpl. rewrite !length_map, !length_seq.
  replace (y * 12)%Z with (12 * y)%Z by lia.
  repeat split; try lia.
  - apply lookup_map_seq_0. lia.
  - apply lookup_map_seq_0. lia.
  - intros n Hn1 Hn2.
    exists (sip_total c (n - 1)), (sip_value c (monthly_rate_of r) (n - 1)).
    rewrite !lookup_map_seq_0 by lia.
    destruct n as [|j]; [lia|]. simpl. rewrite Nat.sub_0_r. done.
Qed.

Lemma sip_returns_series_witness :
  exists df, calculate_sip_returns 1000 12 1 = Ok df /\
    Z.of_nat (length (SipFrame.Total_Investment df)) = 12%Z /\
    SipFrame.Total_Investment df !! 0%nat = Some 1000.
Proof.
  destruct (sip_returns_series 1000 12 1) as (df & Hdf & _ & Hlen & _ & H0 & _);
    [lra | lra | lia |].
  exists df. split; [exact Hdf|]. split; [exact Hlen | exact H0].
Defined.

Lemma monthly_rate_of_0 : monthly_rate_of 0 = 0.
Proof.
  unfold monthly_rate_of, Rpower.
  replace (1 + 0 / 100) with 1 by lra.
  rewrite ln_1, Rmult_0_r, exp_0. lra.
Qed.

Lemma sip_value_zero_rate (c : R) (i : nat) : sip_value c 0 i = sip_total c i.
Proof. induction i as [|i IH]; simpl; [done|]. rewrite IH. lra. Qed.

(** C8.  With an annual rate of 0 the monthly rate is exactly 0 and, for a
    contribution [c > 0] and [y >= 1] years, growth is linear: at every
    period [n] in [1 .. 12 * y] the value of [calculate_sip_returns c 0 y]
    equals the contributed amount, and both are [n * c]. *)
Theorem sip_zero_rate_linear (c : R) (y : Z) :
  0 < c -> (1 <= y)%Z ->
  monthly_rate_of 0 = 0 /\
  exists df, calculate_sip_returns c 0 y = Ok df /\
    forall n : nat, (1 <= n)%nat -> (Z.of_nat n <= 12 * y)%Z ->
      exists v,
        SipFrame.Investment_Value df !! (n - 1)%nat = Some v /\
        SipFrame.Total_Investment df !! (n - 1)%nat = Some v /\
        v = INR n * c.
Proof.
  intros _ Hy. split; [apply monthly_rate_of_0|].
  eexists. split; [apply calculate_sip_returns_Ok; lia|].
  simpl. intros n Hn1 Hn2. exists (sip_total c (n - 1)).
  rewrite !lookup_map_seq_0 by lia.
  rewrite monthly_rate_of_0, sip_value_zero_rate.
  split; [done|]. split; [done|].
  rewrite sip_total_closed. do 2 f_equal. lia.
Qed.

Lemma sip_zero_rate_linear_witness :
  exists df, calculate_sip_returns 500 0 2 = Ok df /\
    exists v, SipFrame.Investment_Value df !! 23%nat = Some v /\
              SipFrame.Total_Investment df !! 23%nat = Some v /\
              v = INR 24 * 500.
Proof.
  destruct (sip_zero_rate_linear 500 2) as (_ & df & Hdf & Hrow); [lra | lia |].
  exists df. split; [exact Hdf|]. apply (Hrow 24%nat); lia.
Defined.

(** ** Goal backsolver *)

Lemma growth_factor_gt_1 (r : R) : 0 < r -> 1 < Rpower (1 + r / 100) (1 / 12).
Proof.
  intros Hr. unfold Rpower.
  rewrite <- exp_0 at 1. apply exp_increasing.
  apply Rmult_lt_0_compat; [lra|].
  rewrite <- ln_1. apply ln_increasing; lra.
Qed.

Lemma monthly_rate_of_pos (r : R) : 0 < r -> 0 < monthly_rate_of r.
Proof. intros Hr. unfold monthly_rate_of. pose proof (growth_factor_gt_1 r Hr). lra. Qed.

(** Twelve months at the monthly rate compound to the annual rate. *)
Lemma monthly_rate_compounds (r : R) :
  0 <= r -> (1 + monthly_rate_of r) ^ 12 = 1 + r / 100.
Proof.
  intros Hr. unfold monthly_rate_of.
  replace (1 + (Rpower (1 + r / 100) (1 / 12) - 1))
    with (Rpower (1 + r / 100) (1 / 12)) by lra.
  rewrite <- Rpower_pow by apply exp_pos.
  rewrite Rpower_mult.
  replace (1 / 12 * INR 12) with 1 by (simpl; lra).
  apply Rpower_1. lra.
Qed.

Lemma monthly_rate_of_nonneg (r : R) : 0 <= r -> 0 <= monthly_rate_of r.
Proof.
  intros [Hr | <-].
  - left. by apply monthly_rate_of_pos.
  - rewrite monthly_rate_of_0. lra.
Qed.

(** The twelfth root undoes the twelfth power. *)
Lemma Rpower_twelfth_pow (a : R) : 0 < a -> Rpower (a ^ 12) (1 / 12) = a.
Proof.
  intros Ha. rewrite <- Rpower_pow by done. rewrite Rpower_mult.
  replace (INR 12 * (1 / 12)) with 1 by (simpl; lra).
  by apply Rpower_1.
Qed.

(** The monthly rate is at most [a] exactly when the annual growth factor
    is at most twelve months of growth at [a]. *)
Lemma monthly_rate_of_le_iff (r a : R) :
  0 <= r -> 0 <= a ->
  monthly_rate_of r <= a <-> 1 + r / 100 <= (1 + a) ^ 12.
Proof.
  intros Hr Ha. pose proof (monthly_rate_of_nonneg r Hr) as Hm0. split.
  - intros Hm. rewrite <- monthly_rate_compounds by done.
    apply pow_incr. lra.
  - intros Hx. unfold monthly_rate_of.
    pose proof (Rpower_twelfth_pow (1 + a) ltac:(lra)) as Hroot.
    set (P := (1 + a) ^ 12) in *.
    assert (Hle : Rpower (1 + r / 100) (1 / 12) <= Rpower P (1 / 12))
      by (apply Rle_Rpower_l; lra).
    lra.
Qed.

(** Twelve months at the largest monthly rate that keeps the round trip
    within 1e-6 stay below an annual rate of 1%. *)
Lemma tolerance_threshold_below_one_percent :
  (1 + 1 / 999999) ^ 12 < 1 + 1 / 100.
Proof. simpl. lra. Qed.

(** A final value one month of growth short of the target is within the
    relative tolerance 1e-6 exactly when the monthly rate is at most
    1/999999. *)
Lemma one_month_short_within_tolerance (T v m : R) :
  0 < T -> 0 < m -> v * (1 + m) = T ->
  Rabs (v - T) <= 1 / 1000000 * T <-> m <= 1 / 999999.
Proof.
  intros HT Hm Hv.
  assert (Hpos : 0 < v).
  { destruct (Rlt_le_dec 0 v) as [|Hneg]; [done|]. exfalso.
    assert (v * (1 + m) <= 0 * (1 + m)) by (apply Rmult_le_compat_r; lra).
    lra. }
  assert (Hvm : 0 < v * m) by (by apply Rmult_lt_0_compat).
  rewrite Rabs_left by lra. split.
  - intros Hwithin. destruct (Rle_lt_dec m (1 / 999999)) as [|Hgt]; [done|].
    exfalso.
    assert (v * (1 / 999999) < v * m) by (by apply Rmult_lt_compat_l).
    lra.
  - intros Hle.
    assert (v * m <= v * (1 / 999999)) by (apply Rmult_le_compat_l; lra).
    lra.
Qed.

Lemma pow_gt_1 (g : R) (n : nat) : 1 < g -> (1 <= n)%nat -> 1 < g ^ n.
Proof.
  intros Hg Hn. induction n as [|n IH]; [lia|].
  destruct n as [|n']; [simpl; lra|].
  assert (1 < g ^ S n') by (apply IH; lia).
  change (g ^ S (S n')) with (g * g ^ S n'). nra.
Qed.

Lemma sip_value_closed (c m : R) (i : nat) :
  sip_value c m i * m = c * ((1 + m) ^ S i - 1).
Proof.
  induction i as [|i IH]; [simpl; lra|].
  change (sip_value c m (S i)) with (sip_value c m i * (1 + m) + c).
  change ((1 + m) ^ S (S i)) with ((1 + m) * (1 + m) ^ S i).
  transitivity (sip_value c m i * m * (1 + m) + c * m); [lra|].
  rewrite IH. lra.
Qed.

(** For a positive rate and at least one year none of the three divisions
    has a zero divisor. *)
Lemma calculate_goal_based_sip_Ok (T r : R) (y : Z) :
  0 < r -> (1 <= y)%Z ->
  calculate_goal_based_sip T r y =
  Ok (T / (((1 + monthly_rate_of r) ^ Z.to_nat (y * 12) - 1) / monthly_rate_of r)
        / (1 + monthly_rate_of r)).
Proof.
  intros Hr Hy. unfold calculate_goal_based_sip.
  pose proof (monthly_rate_of_pos r Hr) as Hm.
  set (m := monthly_rate_of r) in *.
  assert (Hpow : powerRZ (1 + m) (y * 12) = (1 + m) ^ Z.to_nat (y * 12)).
  { rewrite pow_powerRZ. f_equal. lia. }
  rewrite Hpow.
  assert (Hg : 1 < (1 + m) ^ Z.to_nat (y * 12)) by (apply pow_gt_1; [lra | lia]).
  rewrite py_div_Ok by lra. simpl.
  rewrite py_div_Ok.
  - simpl. apply py_div_Ok. lra.
  - apply Rgt_not_eq. apply Rdiv_lt_0_compat; lra.
Qed.

(** Running the simulator on the backsolver's contribution: the final value,
    grown for one more month, is the target. *)
Lemma goal_roundtrip_value (T r : R) (y : Z) :
  0 < r -> (1 <= y)%Z ->
  exists c df v,
    calculate_goal_based_sip T r y = Ok c /\
    calculate_sip_returns c r y = Ok df /\
    last (SipFrame.Investment_Value df) = Some v /\
    v * (1 + monthly_rate_of r) = T.
Proof.
  intros Hr Hy.
  pose proof (monthly_rate_of_pos r Hr) as Hm.
  eexists _, _, _. split; [by apply calculate_goal_based_sip_Ok|].
  split; [apply calculate_sip_returns_Ok; lia|].
  simpl. set (n := Z.to_nat (y * 12)). set (m := monthly_rate_of r) in *.
  assert (Hn : (1 <= n)%nat) by (subst n; lia).
  split.
  - rewrite last_lookup, length_map, length_seq.
    apply lookup_map_seq_0. lia.
  - set (c := T / (((1 + m) ^ n - 1) / m) / (1 + m)).
    pose proof (sip_value_closed c m (Nat.pred n)) as Hv.
    replace (S (Nat.pred n)) with n in Hv by lia.
    assert (Hg : 1 < (1 + m) ^ n) by (apply pow_gt_1; [lra | lia]).
    assert (Hv' : sip_value c m (Nat.pred n) = c * ((1 + m) ^ n - 1) / m).
    { apply (Rmult_eq_reg_r m); [|lra]. rewrite Hv. field. lra. }
    change (sip_value c m (Nat.pred n) * (1 + m) = T).
    rewrite Hv'. subst c. field. lra.
Qed.

(** C1 (as the code has it).  For a target [T > 0], a rate [r > 0] and
    [y >= 1] years, [calculate_goal_based_sip T r y] returns a contribution
    [c], [calculate_sip_returns c r y] returns a series, and the final value
    [v] of that series satisfies [v * (1 + monthly_rate) = T]: the backsolver
    inverts the annuity-due formula while the simulator steps an ordinary
    annuity, so the series ends one month of growth below the target, a
    relative shortfall of [monthly_rate / (1 + monthly_rate)].  Hence [v] is
    within the relative tolerance 1e-6 of [T] exactly when
    [1 + r/100 <= (1 + 1/999999) ^ 12], and it is not for any [r >= 1]. *)
Theorem goal_roundtrip_one_month_short (T r : R) (y : Z) :
  0 < T -> 0 < r -> (1 <= y)%Z ->
  exists c df v,
    calculate_goal_based_sip T r y = Ok c /\
    calculate_sip_returns c r y = Ok df /\
    last (SipFrame.Investment_Value df) = Some v /\
    v * (1 + monthly_rate_of r) = T /\
    v < T /\
    (T - v) / T = monthly_rate_of r / (1 + monthly_rate_of r) /\
    (Rabs (v - T) <= 1 / 1000000 * T <->
     1 + r / 100 <= (1 + 1 / 999999) ^ 12) /\
    (1 <= r -> ~ Rabs (v - T) <= 1 / 1000000 * T).
Proof.
  intros HT Hr Hy.
  destruct (goal_roundtrip_value T r y Hr Hy) as (c & df & v & Hc & Hdf & Hlast & Hv).
  pose proof (monthly_rate_of_pos r Hr) as Hm.
  assert (Hiff : Rabs (v - T) <= 1 / 1000000 * T <->
                 1 + r / 100 <= (1 + 1 / 999999) ^ 12).
  { rewrite (one_month_short_within_tolerance T v (monthly_rate_of r) HT Hm Hv).
    apply monthly_rate_of_le_iff; lra. }
  exists c, df, v.
  split; [exact Hc|]. split; [exact Hdf|]. split; [exact Hlast|].
  split; [exact Hv|]. split; [|split; [|split]].
  - assert (0 < v) by nra. nra.
  - rewrite <- Hv. field. split; [lra|].
    intros Hzero. rewrite Hzero in Hv. lra.
  - exact Hiff.
  - intros Hr1 Hwithin. apply Hiff in Hwithin.
    pose proof tolerance_threshold_below_one_percent as Hthr.
    set (K := (1 + 1 / 999999) ^ 12) in *. lra.
Qed.

Lemma goal_roundtrip_one_month_short_witness :
  exists c df v,
    calculate_goal_based_sip 1000000 12 10 = Ok c /\
    calculate_sip_returns c 12 10 = Ok df /\
    last (SipFrame.Investment_Value df) = Some v /\
    v * (1 + monthly_rate_of 12) = 1000000.
Proof.
  destruct (goal_roundtrip_one_month_short 1000000 12 10)
    as (c & df & v & Hc & Hdf & Hlast & Hv & _); [lra | lra | lia |].
  exists c, df, v. auto.
Defined.

Lemma monthly_rate_of_12_lower : 9 / 1000 < monthly_rate_of 12.
Proof.
  pose proof (monthly_rate_compounds 12 ltac:(lra)) as H12.
  pose proof (monthly_rate_of_pos 12 ltac:(lra)) as Hm.
  destruct (Rlt_le_dec (9 / 1000) (monthly_rate_of 12)) as [|Hle]; [done|].
  exfalso.
  assert (Hpow : (1 + monthly_rate_of 12) ^ 12 <= (1009 / 1000) ^ 12)
    by (apply pow_incr; lra).
  rewrite H12 in Hpow.
  assert ((1009 / 1000) ^ 12 < 1 + 12 / 100) by (simpl; lra).
  lra.
Qed.

(** C1 as stated fails at target 1,000,000, rate 12%, 10 years: the final
    value of the series misses the target by more than 0.8% of it, far
    outside a relative tolerance of 1e-6. *)
Lemma goal_roundtrip_counterexample :
  exists c df v,
    calculate_goal_based_sip 1000000 12 10 = Ok c /\
    calculate_sip_returns c 12 10 = Ok df /\
    last (SipFrame.Investment_Value df) = Some v /\
    8 / 1000 * 1000000 < Rabs (v - 1000000) /\
    ~ Rabs (v - 1000000) <= 1 / 1000000 * 1000000.
Proof.
  destruct (goal_roundtrip_value 1000000 12 10)
    as (c & df & v & Hc & Hdf & Hlast & Hv); [lra | lia |].
  exists c, df, v. split; [exact Hc|]. split; [exact Hdf|]. split; [exact Hlast|].
  pose proof monthly_rate_of_12_lower as Hm.
  assert (Hpos : 0 < v).
  { destruct (Rlt_le_dec 0 v) as [|Hneg]; [done|]. exfalso.
    assert (v * (1 + monthly_rate_of 12) <= 0 * (1 + monthly_rate_of 12))
      by (apply Rmult_le_compat_r; lra).
    lra. }
  assert (Hup : v * (1009 / 1000) < v * (1 + monthly_rate_of 12))
    by (apply Rmult_lt_compat_l; lra).
  rewrite Rabs_left by lra. split; lra.
Qed.

(** C2 (as the code has it).  For a target [T > 0] and [y >= 1] years,
    [calculate_goal_based_sip] with annual rate 0 raises [ZeroDivisionError]:
    the monthly rate is 0 and the divisor
    [((1 + monthly_rate) ** n - 1) / monthly_rate] is evaluated as written,
    without a special case for the 0/0 limit. *)
Theorem goal_sip_zero_rate_raises (T : R) (y : Z) :
  0 < T -> (1 <= y)%Z ->
  calculate_goal_based_sip T 0 y = Raise ZeroDivisionError.
Proof.
  intros _ _. unfold calculate_goal_based_sip.
  rewrite monthly_rate_of_0, py_div_zero. done.
Qed.

Lemma goal_sip_zero_rate_raises_witness :
  calculate_goal_based_sip 1000000 0 10 = Raise ZeroDivisionError.
Proof. apply goal_sip_zero_rate_raises; [lra | lia]. Defined.

(** C2 as stated fails at target 1,000,000, rate 0, 10 years: the call does
    not return [T / n] with [n = 120], it raises. *)
Lemma goal_sip_zero_rate_counterexample :
  calculate_goal_based_sip 1000000 0 10 = Raise ZeroDivisionError /\
  calculate_goal_based_sip 1000000 0 10 <> Ok (1000000 / 120).
Proof.
  assert (H : calculate_goal_based_sip 1000000 0 10 = Raise ZeroDivisionError).
  { unfold calculate_goal_based_sip. rewrite monthly_rate_of_0, py_div_zero. done. }
  split; [exact H|]. rewrite H. discriminate.
Qed.

(** ** Lump-Sum Simulator *)

Lemma enumerate_seqZ_S (k : nat) :
  imap pair (seqZ 0 (Z.of_nat (S k))) =
  imap pair (seqZ 0 (Z.of_nat k)) ++ [(k, Z.of_nat k)].
Proof.
  rewrite seqZ_S, imap_app. simpl.
  by rewrite length_seqZ, Nat2Z.id, Nat.add_0_r.
Qed.

Lemma lumpsum_loop (p r : R) (n k : nat) :
  (k <= n)%nat ->
  for_each (lumpsum_body p r) (imap pair (seqZ 0 (Z.of_nat k))) (replicate n 0) =
  Ok (filled (lumpsum_value p r) n k).
Proof.
  induction k as [|k IH]; intros Hk.
  - simpl. by rewrite filled_0.
  - rewrite enumerate_seqZ_S, for_each_snoc, IH by lia. simpl.
    by apply np_set_filled.
Qed.

(** The call returns for every duration; a negative one gives an empty frame. *)
Lemma calculate_lumpsum_returns_Ok (p r : R) (y : Z) :
  calculate_lumpsum_returns p r y =
  Ok (LumpsumFrame.mk (seqZ 0 (y + 1))
        (map (lumpsum_value p r) (seq 0 (Z.to_nat (y + 1))))).
Proof.
  unfold calculate_lumpsum_returns.
  rewrite np_zeros_Ok by lia. simpl.
  rewrite Nat2Z.id, length_seqZ.
  assert (Hseq : seqZ 0 (y + 1) = seqZ 0 (Z.of_nat (Z.to_nat (y + 1))))
    by (unfold seqZ; by rewrite Nat2Z.id).
  rewrite Hseq at 1.
  rewrite lumpsum_loop by done. simpl.
  by rewrite filled_all.
Qed.

(** C5.  For a principal [p > 0], a rate [r >= 0] and [y >= 1] years,
    [calculate_lumpsum_returns p r y] returns a frame of exactly [y + 1] rows
    for the years [0 .. y], with value [p * (1 + r/100) ^ k] in year [k]; at
    rate 0 every value is [p]. *)
Theorem lumpsum_returns_series (p r : R) (y : Z) :
  0 < p -> 0 <= r -> (1 <= y)%Z ->
  exists df, calculate_lumpsum_returns p r y = Ok df /\
    LumpsumFrame.Year df = seqZ 0 (y + 1) /\
    Z.of_nat (length (LumpsumFrame.Investment_Value df)) = (y + 1)%Z /\
    (forall k : nat, (Z.of_nat k <= y)%Z ->
       LumpsumFrame.Investment_Value df !! k = Some (p * (1 + r / 100) ^ k)) /\
    (r = 0 ->
     forall k : nat, (Z.of_nat k <= y)%Z ->
       LumpsumFrame.Investment_Value df !! k = Some p).
Proof.
  intros _ _ Hy. eexists. split; [apply calculate_lumpsum_returns_Ok|].
  simpl. rewrite length_map, length_seq.
  assert (Hk : forall k : nat, (Z.of_nat k <= y)%Z ->
            map (lumpsum_value p r) (seq 0 (Z.to_nat (y + 1))) !! k =
            Some (p * (1 + r / 100) ^ k)).
  { intros k Hk. rewrite lookup_map_seq_0 by lia.
    unfold lumpsum_value. by rewrite <- pow_powerRZ. }
  repeat split; [lia | exact Hk |].
  intros -> k Hk'. rewrite Hk by done.
  replace (1 + 0 / 100) with 1 by lra.
  by rewrite pow1, Rmult_1_r.
Qed.

Lemma lumpsum_returns_series_witness :
  exists df, calculate_lumpsum_returns 100000 10 5 = Ok df /\
    LumpsumFrame.Investment_Value df !! 5%nat = Some (100000 * (1 + 10 / 100) ^ 5).
Proof.
  destruct (lumpsum_returns_series 100000 10 5) as (df & Hdf & _ & _ & Hk & _);
    [lra | lra | lia |].
  exists df. split; [exact Hdf|]. apply Hk. lia.
Defined.

(** ** Escalating-Contribution Simulator *)

Lemma stepup_sip_0 (c0 s : R) : stepup_sip c0 s 0 = c0.
Proof. unfold stepup_sip. rewrite Nat.Div0.div_0_l. simpl. lra. Qed.

(** Inside a year the previous month's contribution is carried over. *)
Lemma stepup_sip_same_year (c0 s : R) (j : nat) :
  (S j mod 12 <> 0)%nat -> stepup_sip c0 s j = stepup_sip c0 s (S j).
Proof.
  intros Hmod. unfold stepup_sip. do 2 f_equal.
  pose proof (Nat.div_mod_eq (S j) 12) as Hdm.
  pose proof (Nat.mod_upper_bound (S j) 12 ltac:(done)) as Hlt.
  symmetry. apply (Nat.div_unique j 12 (S j / 12) (S j mod 12 - 1)); lia.
Qed.

Lemma step_up_loop (c0 s m : R) (n k : nat) :
  (k <= n)%nat ->
  for_each (step_up_body c0 s m) (seq 0 k)
    (StepUpArrays (replicate n 0) (replicate n 0) (replicate n 0)) =
  Ok (StepUpArrays (filled (stepup_sip c0 s) n k)
        (filled (stepup_total c0 s) n k)
        (filled (stepup_value c0 s m) n k)).
Proof.
  induction k as [|k IH]; intros Hk.
  - simpl. by rewrite !filled_0.
  - rewrite seq_S, for_each_snoc, IH by lia.
    rewrite bind_Ok. change (0 + k)%nat with k.
    unfold step_up_body. destruct k as [|j].
    + change ((0 mod 12 =? 0) && (0 <? 0))%nat with false.
      change (0 =? 0)%nat with true. cbv iota. rewrite bind_Ok.
      rewrite (np_set_filled (stepup_sip c0 s)) by (lia || by rewrite stepup_sip_0).
      rewrite bind_Ok.
      rewrite (np_set_filled (stepup_total c0 s))
        by (lia || by (simpl; rewrite stepup_sip_0)).
      rewrite bind_Ok.
      rewrite (np_set_filled (stepup_value c0 s m))
        by (lia || by (simpl; rewrite stepup_sip_0)).
      done.
    + change (0 <? S j)%nat with true. rewrite andb_true_r.
      change (S j =? 0)%nat with false. cbv iota.
      change (S j - 1)%nat with (j - 0)%nat. rewrite Nat.sub_0_r.
      assert (Hcur :
        (if (S j mod 12 =? 0)%nat
         then Ok (c0 * (1 + s / 100) ^ (S j / 12))
         else np_get (filled (stepup_sip c0 s) n (S j)) j) =
        Ok (stepup_sip c0 s (S j))).
      { destruct (Nat.eqb_spec (S j mod 12) 0) as [|Hmod]; [done|].
        rewrite np_get_filled by lia. f_equal.
        by apply stepup_sip_same_year. }
      rewrite Hcur, bind_Ok.
      rewrite (np_set_filled (stepup_sip c0 s)) by (lia || done).
      rewrite bind_Ok.
      rewrite (np_get_filled (stepup_total c0 s)) by lia. rewrite bind_Ok.
      rewrite (np_set_filled (stepup_total c0 s)) by (lia || done).
      rewrite bind_Ok.
      rewrite (np_get_filled (stepup_value c0 s m)) by lia. rewrite bind_Ok.
      rewrite (np_set_filled (stepup_value c0 s m)) by (lia || done).
      done.
Qed.

(** For a non-negative duration the call returns, and its columns are the
    closed forms. *)
Lemma calculate_step_up_sip_Ok (c0 s r : R) (y : Z) :
  (0 <= y)%Z ->
  calculate_step_up_sip c0 s r y =
  Ok (StepUpFrame.mk (seqZ 1 (y * 12))
        (map (stepup_sip c0 s) (seq 0 (Z.to_nat (y * 12))))
        (map (stepup_total c0 s) (seq 0 (Z.to_nat (y * 12))))
        (map (stepup_value c0 s (monthly_rate_of r)) (seq 0 (Z.to_nat (y * 12))))).
Proof.
  intros Hy. unfold calculate_step_up_sip, py_range.
  rewrite np_zeros_Ok by lia. rewrite !bind_Ok.
  rewrite step_up_loop by done. rewrite bind_Ok. simpl.
  by rewrite !filled_all.
Qed.

(** C4.  For an initial contribution [c0 > 0], a step-up rate [s >= 0], an
    annual rate [r >= 0] and [y >= 1] years, [calculate_step_up_sip] returns
    a frame whose [Monthly_SIP] at every 1-based period in [1 .. 12 * y] is
    [c0 * (1 + s/100) ^ floor((period - 1) / 12)]: periods 1-12 hold [c0], the
    first period of year [j + 1] (period [12 * j + 1] = 13, 25, ...) holds
    [c0 * (1 + s/100) ^ j]; the value column starts at the first contribution
    and then follows value = previous value * (1 + monthly_rate) + the
    period's contribution. *)
Theorem step_up_schedule (c0 s r : R) (y : Z) :
  0 < c0 -> 0 <= s -> 0 <= r -> (1 <= y)%Z ->
  exists df, calculate_step_up_sip c0 s r y = Ok df /\
    let m := Rpower (1 + r / 100) (1 / 12) - 1 in
    let sip := StepUpFrame.Monthly_SIP df in
    let value := StepUpFrame.Investment_Value df in
    (forall period : nat, (1 <= period)%nat -> (Z.of_nat period <= 12 * y)%Z ->
       sip !! (period - 1)%nat =
       Some (c0 * (1 + s / 100) ^ ((period - 1) / 12))) /\
    (forall period : nat, (1 <= period <= 12)%nat ->
       sip !! (period - 1)%nat = Some c0) /\
    (forall j : nat, (1 <= j)%nat -> (Z.of_nat j < y)%Z ->
       sip !! (12 * j + 1 - 1)%nat = Some (c0 * (1 + s / 100) ^ j)) /\
    value !! 0%nat = Some c0 /\
    (forall n : nat, (1 <= n)%nat -> (Z.of_nat n < 12 * y)%Z ->
       exists b a,
         value !! (n - 1)%nat = Some b /\
         sip !! n = Some a /\
         value !! n = Some (b * (1 + m) + a)).
Proof.
  intros _ _ _ Hy. eexists. split; [apply calculate_step_up_sip_Ok; lia|].
  cbn [StepUpFrame.Monthly_SIP StepUpFrame.Investment_Value].
  assert (Hsip : forall period : nat,
            (1 <= period)%nat -> (Z.of_nat period <= 12 * y)%Z ->
            map (stepup_sip c0 s) (seq 0 (Z.to_nat (y * 12))) !! (period - 1)%nat =
            Some (c0 * (1 + s / 100) ^ ((period - 1) / 12))).
  { intros period Hp1 Hp2. by rewrite lookup_map_seq_0 by lia. }
  split; [exact Hsip|]. split; [|split; [|split]].
  - intros period [Hp1 Hp2]. rewrite Hsip by lia.
    rewrite Nat.div_small by lia. simpl. f_equal. lra.
  - intros j Hj1 Hj2. rewrite Hsip by lia.
    replace (12 * j + 1 - 1)%nat with (j * 12)%nat by lia.
    by rewrite Nat.div_mul.
  - rewrite lookup_map_seq_0 by lia. simpl. by rewrite stepup_sip_0.
  - intros n Hn1 Hn2.
    exists (stepup_value c0 s (monthly_rate_of r) (n - 1)), (stepup_sip c0 s n).
    rewrite !lookup_map_seq_0 by lia.
    destruct n as [|i]; [lia|].
    change (S i - 1)%nat with (i - 0)%nat. rewrite Nat.sub_0_r. done.
Qed.

Lemma step_up_schedule_witness :
  exists df, calculate_step_up_sip 1000 10 12 2 = Ok df /\
    StepUpFrame.Monthly_SIP df !! 11%nat = Some 1000 /\
    StepUpFrame.Monthly_SIP df !! 12%nat = Some (1000 * (1 + 10 / 100) ^ 1).
Proof.
  destruct (step_up_schedule 1000 10 12 2) as (df & Hdf & _ & H12 & H13 & _);
    [lra | lra | lra | lia |].
  exists df. split; [exact Hdf|]. split.
  - apply (H12 12%nat). lia.
  - apply (H13 1%nat); lia.
Defined.

Lemma stepup_sip_no_step (c0 : R) (i : nat) : stepup_sip c0 0 i = c0.
Proof.
  unfold stepup_sip. replace (1 + 0 / 100) with 1 by lra.
  rewrite pow1. lra.
Qed.

Lemma stepup_total_no_step (c0 : R) (i : nat) : stepup_total c0 0 i = sip_total c0 i.
Proof.
  induction i as [|i IH]; simpl; rewrite ?IH, stepup_sip_no_step; done.
Qed.

Lemma stepup_value_no_step (c0 m : R) (i : nat) :
  stepup_value c0 0 m i = sip_value c0 m i.
Proof.
  induction i as [|i IH]; simpl; rewrite ?IH, stepup_sip_no_step; done.
Qed.

(** C6.  For an initial contribution [c0 > 0], a rate [r >= 0] and [y >= 1]
    years, [calculate_step_up_sip] with step-up rate 0 and
    [calculate_sip_returns] both return, and their period, contributed and
    value columns are equal. *)
Theorem step_up_zero_is_sip (c0 r : R) (y : Z) :
  0 < c0 -> 0 <= r -> (1 <= y)%Z ->
  exists su df,
    calculate_step_up_sip c0 0 r y = Ok su /\
    calculate_sip_returns c0 r y = Ok df /\
    StepUpFrame.Month su = SipFrame.Month df /\
    StepUpFrame.Total_Investment su = SipFrame.Total_Investment df /\
    StepUpFrame.Investment_Value su = SipFrame.Investment_Value df.
Proof.
  intros _ _ Hy. eexists _, _.
  split; [apply calculate_step_up_sip_Ok; lia|].
  split; [apply calculate_sip_returns_Ok; lia|].
  cbn [StepUpFrame.Month StepUpFrame.Total_Investment StepUpFrame.Investment_Value
       SipFrame.Month SipFrame.Total_Investment SipFrame.Investment_Value].
  split; [done|]. split; apply map_ext; intros i.
  - apply stepup_total_no_step.
  - apply stepup_value_no_step.
Qed.

Lemma step_up_zero_is_sip_witness :
  exists su df,
    calculate_step_up_sip 1000 0 12 15 = Ok su /\
    calculate_sip_returns 1000 12 15 = Ok df /\
    StepUpFrame.Investment_Value su = SipFrame.Investment_Value df.
Proof.
  destruct (step_up_zero_is_sip 1000 12 15) as (su & df & Hsu & Hdf & _ & _ & Hv);
    [lra | lra | lia |].
  exists su, df. auto.
Defined.

(** ** Monotone contributions *)

Lemma sip_total_increasing (c : R) (i j : nat) :
  0 < c -> (i < j)%nat -> sip_total c i < sip_total c j.
Proof.
  intros Hc Hij. induction Hij as [|j Hij IH]; simpl; lra.
Qed.

Lemma stepup_sip_pos (c0 s : R) (i : nat) : 0 < c0 -> 0 <= s -> 0 < stepup_sip c0 s i.
Proof.
  intros Hc Hs. unfold stepup_sip.
  apply Rmult_lt_0_compat; [done|]. apply pow_lt. lra.
Qed.

Lemma stepup_total_increasing (c0 s : R) (i j : nat) :
  0 < c0 -> 0 <= s -> (i < j)%nat -> stepup_total c0 s i < stepup_total c0 s j.
Proof.
  intros Hc Hs Hij.
  induction Hij as [|j Hij IH];
    change (stepup_total c0 s (S ?k)) with (stepup_total c0 s k + stepup_sip c0 s (S k)).
  - pose proof (stepup_sip_pos c0 s (S i) Hc Hs). lra.
  - pose proof (stepup_sip_pos c0 s (S j) Hc Hs). lra.
Qed.

Lemma lookup_map_seq_0_Some (f : nat -> R) (n i : nat) (x : R) :
  map f (seq 0 n) !! i = Some x -> x = f i.
Proof.
  intros Hx. destruct (decide (i < n)%nat) as [Hi|Hi].
  - rewrite lookup_map_seq_0 in Hx by done. congruence.
  - rewrite lookup_ge_None_2 in Hx; [done|].
    rewrite length_map, length_seq. lia.
Qed.

(** C7.  For a contribution [c > 0], a step-up rate [s >= 0], a rate
    [r >= 0] and [y >= 1] years, both [calculate_sip_returns c r y] and
    [calculate_step_up_sip c s r y] return, every per-period contribution of
    the step-up series is positive, and in both series the cumulative
    contributed amount is non-decreasing, indeed strictly increasing, from
    any period to any later one. *)
Theorem contributed_monotone (c s r : R) (y : Z) :
  0 < c -> 0 <= s -> 0 <= r -> (1 <= y)%Z ->
  (exists df, calculate_sip_returns c r y = Ok df /\
     Z.of_nat (length (SipFrame.Total_Investment df)) = (12 * y)%Z /\
     forall (i j : nat) (a b : R), (i < j)%nat ->
       SipFrame.Total_Investment df !! i = Some a ->
       SipFrame.Total_Investment df !! j = Some b ->
       a <= b /\ a < b) /\
  (exists su, calculate_step_up_sip c s r y = Ok su /\
     Z.of_nat (length (StepUpFrame.Total_Investment su)) = (12 * y)%Z /\
     (forall (i : nat) (q : R),
        StepUpFrame.Monthly_SIP su !! i = Some q -> 0 < q) /\
     forall (i j : nat) (a b : R), (i < j)%nat ->
       StepUpFrame.Total_Investment su !! i = Some a ->
       StepUpFrame.Total_Investment su !! j = Some b ->
       a <= b /\ a < b).
Proof.
  intros Hc Hs _ Hy. split.
  - eexists. split; [apply calculate_sip_returns_Ok; lia|].
    cbn [SipFrame.Total_Investment].
    split; [rewrite length_map, length_seq; lia|].
    intros i j a b Hij Ha Hb.
    apply lookup_map_seq_0_Some in Ha, Hb. subst a b.
    pose proof (sip_total_increasing c i j Hc Hij). lra.
  - eexists. split; [apply calculate_step_up_sip_Ok; lia|].
    cbn [StepUpFrame.Total_Investment StepUpFrame.Monthly_SIP].
    split; [rewrite length_map, length_seq; lia|]. split.
    + intros i q Hq. apply lookup_map_seq_0_Some in Hq. subst q.
      by apply stepup_sip_pos.
    + intros i j a b Hij Ha Hb.
      apply lookup_map_seq_0_Some in Ha, Hb. subst a b.
      pose proof (stepup_total_increasing c s i j Hc Hs Hij). lra.
Qed.

Lemma contributed_monotone_witness :
  exists df, calculate_sip_returns 1000 12 1 = Ok df /\
    forall a b : R,
      SipFrame.Total_Investment df !! 0%nat = Some a ->
      SipFrame.Total_Investment df !! 11%nat = Some b -> a < b.
Proof.
  destruct (contributed_monotone 1000 10 12 1) as ((df & Hdf & _ & Hmono) & _);
    [lra | lra | lra | lia |].
  exists df. split; [exact Hdf|].
  intros a b Ha Hb. apply (Hmono 0%nat 11%nat a b); [lia | exact Ha | exact Hb].
Defined.

(** ** Real return and retirement corpus *)

(** C9.  For a nominal rate [r] and an inflation rate [i >= 0] the real
    annual return is [(1 + r/100) / (1 + i/100) - 1]; for [r = 12] and
    [i = 6] it is 0.0566 to four decimal places. *)
Theorem real_return_formula (r i : R) :
  0 <= i ->
  real_return_rate r i = Ok ((1 + r / 100) / (1 + i / 100) - 1) /\
  exists v, real_return_rate 12 6 = Ok v /\
    Rabs (v - 566 / 10000) < 5 / 100000.
Proof.
  intros Hi. split.
  - unfold real_return_rate. rewrite py_div_Ok by lra. done.
  - eexists. split.
    + unfold real_return_rate. rewrite py_div_Ok by lra. done.
    + apply Rabs_def1; lra.
Qed.

Lemma real_return_formula_witness :
  real_return_rate 12 6 = Ok ((1 + 12 / 100) / (1 + 6 / 100) - 1).
Proof. apply (real_return_formula 12 6). lra. Defined.

(** C10.  [calculate_retirement_corpus] returns [300 * monthly_expenses], that
    is monthly expenses * 12 * 25, whatever the life expectancy, retirement
    age and inflation rate: the inflation exponent
    [retirement_age - current_age] is 0. *)
Theorem retirement_corpus_is_300_expenses
    (monthly_expenses : R) (life_expectancy retirement_age : Z) (inflation_rate : R) :
  calculate_retirement_corpus monthly_expenses life_expectancy retirement_age
    inflation_rate = 300 * monthly_expenses /\
  calculate_retirement_corpus monthly_expenses life_expectancy retirement_age
    inflation_rate = monthly_expenses * 12 * 25 /\
  forall (life_expectancy' retirement_age' : Z) (inflation_rate' : R),
    calculate_retirement_corpus monthly_expenses life_expectancy' retirement_age'
      inflation_rate' =
    calculate_retirement_corpus monthly_expenses life_expectancy retirement_age
      inflation_rate.
Proof.
  assert (H : forall (le ra : Z) (ir : R),
            calculate_retirement_corpus monthly_expenses le ra ir =
            monthly_expenses * 12 * 25).
  { intros le ra ir. unfold calculate_retirement_corpus.
    rewrite Z.sub_diag. simpl. lra. }
  split; [rewrite H; lra|]. split; [apply H|].
  intros le' ra' ir'. by rewrite !H.
Qed.

(** ** Scenarios *)

(** Running the loop itself for one year: the contributed column after the
    twelfth period is 12 contributions. *)
Example sip_one_year_contributed :
  exists df, calculate_sip_returns 1000 12 1 = Ok df /\
    SipFrame.Month df = [1; 2; 3; 4; 5; 6; 7; 8; 9; 10; 11; 12]%Z /\
    exists a, SipFrame.Total_Investment df !! 11%nat = Some a /\ a = 12000.
Proof.
  eexists. split; [vm_compute; reflexivity|].
  split; [reflexivity|]. eexists. split; [reflexivity|]. lra.
Qed.

(** 100000 at 10% for 5 years grows to 161051. *)
Example lumpsum_five_years :
  exists df, calculate_lumpsum_returns 100000 10 5 = Ok df /\
    LumpsumFrame.Year df = [0; 1; 2; 3; 4; 5]%Z /\
    exists v, LumpsumFrame.Investment_Value df !! 5%nat = Some v /\ v = 161051.
Proof.
  eexists. split; [vm_compute; reflexivity|].
  split; [reflexivity|]. eexists. split; [reflexivity|]. lra.
Qed.

(** A negative duration: [np.zeros] refuses the size. *)
Example sip_negative_duration :
  calculate_sip_returns 1000 12 (-1) = Raise ValueError.
Proof. reflexivity. Qed.

(** In the step-up loop the thirteenth period is the first escalated one. *)
Example step_up_thirteenth_period :
  exists df, calculate_step_up_sip 1000 10 12 2 = Ok df /\
    exists a b,
      StepUpFrame.Monthly_SIP df !! 11%nat = Some a /\ a = 1000 /\
      StepUpFrame.Monthly_SIP df !! 12%nat = Some b /\ b = 1100.
Proof.
  eexists. split; [vm_compute; reflexivity|].
  eexists _, _. split; [reflexivity|]. split; [lra|].
  split; [reflexivity|]. lra.
Qed.

(** ** Further properties of the simulators *)

Lemma monthly_rate_of_mono (r1 r2 : R) :
  0 <= r1 -> r1 <= r2 -> monthly_rate_of r1 <= monthly_rate_of r2.
Proof.
  intros H1 H12. unfold monthly_rate_of.
  assert (Rpower (1 + r1 / 100) (1 / 12) <= Rpower (1 + r2 / 100) (1 / 12))
    by (apply Rle_Rpower_l; lra).
  lra.
Qed.

Lemma monthly_rate_of_strict_mono (r1 r2 : R) :
  0 <= r1 -> r1 < r2 -> monthly_rate_of r1 < monthly_rate_of r2.
Proof.
  intros H1 H12. unfold monthly_rate_of.
  assert (Rpower (1 + r1 / 100) (1 / 12) < Rpower (1 + r2 / 100) (1 / 12))
    by (apply Rlt_Rpower_l; lra).
  lra.
Qed.

Lemma sip_total_nonneg (c : R) (i : nat) : 0 <= c -> 0 <= sip_total c i.
Proof. intros Hc. induction i as [|i IH]; simpl; lra. Qed.

Lemma sip_total_ge_first (c : R) (i : nat) : 0 <= c -> c <= sip_total c i.
Proof. intros Hc. induction i as [|i IH]; simpl; lra. Qed.

Lemma sip_value_ge_total (c m : R) (i : nat) :
  0 <= c -> 0 <= m -> sip_total c i <= sip_value c m i.
Proof.
  intros Hc Hm. induction i as [|i IH]; simpl; [lra|].
  pose proof (sip_total_nonneg c i Hc).
  assert (0 <= sip_value c m i * m) by (apply Rmult_le_pos; lra).
  lra.
Qed.

Lemma sip_value_gt_total (c m : R) (i : nat) :
  0 < c -> 0 < m -> (1 <= i)%nat -> sip_total c i < sip_value c m i.
Proof.
  intros Hc Hm Hi. destruct i as [|i]; [lia|]. simpl.
  pose proof (sip_value_ge_total c m i ltac:(lra) ltac:(lra)).
  pose proof (sip_total_nonneg c i ltac:(lra)).
  pose proof (sip_total_ge_first c i ltac:(lra)).
  assert (0 < sip_value c m i * m) by (apply Rmult_lt_0_compat; lra).
  lra.
Qed.

Lemma sip_value_mono_rate (c m1 m2 : R) (i : nat) :
  0 <= c -> 0 <= m1 -> m1 <= m2 -> sip_value c m1 i <= sip_value c m2 i.
Proof.
  intros Hc H1 H12. induction i as [|i IH]; simpl; [lra|].
  pose proof (sip_value_ge_total c m1 i Hc H1).
  pose proof (sip_total_nonneg c i Hc).
  assert (sip_value c m1 i * (1 + m1) <= sip_value c m2 i * (1 + m2))
    by (apply Rmult_le_compat; lra).
  lra.
Qed.

Lemma sip_value_strict_mono_rate (c m1 m2 : R) (i : nat) :
  0 < c -> 0 <= m1 -> m1 < m2 -> (1 <= i)%nat ->
  sip_value c m1 i < sip_value c m2 i.
Proof.
  intros Hc H1 H12 Hi. destruct i as [|i]; [lia|]. simpl.
  pose proof (sip_value_mono_rate c m1 m2 i ltac:(lra) H1 ltac:(lra)).
  pose proof (sip_value_ge_total c m1 i ltac:(lra) H1).
  pose proof (sip_total_ge_first c i ltac:(lra)).
  assert (sip_value c m1 i * (1 + m1) <= sip_value c m2 i * (1 + m1))
    by (apply Rmult_le_compat_r; lra).
  assert (sip_value c m2 i * (1 + m1) < sip_value c m2 i * (1 + m2))
    by (apply Rmult_lt_compat_l; lra).
  lra.
Qed.

Lemma last_map_seq_0 (f : nat -> R) (n : nat) :
  (1 <= n)%nat -> last (map f (seq 0 n)) = Some (f (n - 1)%nat).
Proof.
  intros Hn. rewrite last_lookup, length_map, length_seq.
  rewrite lookup_map_seq_0 by lia. do 2 f_equal. lia.
Qed.

Lemma iloc_last_map_seq_0 (f : nat -> R) (n : nat) :
  (1 <= n)%nat -> iloc_last (map f (seq 0 n)) = Ok (f (n - 1)%nat).
Proof. intros Hn. unfold iloc_last. by rewrite last_map_seq_0. Qed.

(** X1.  Closed forms of the SIP series: for a rate [r > 0] and [y >= 0]
    years, at every period [n] in [1 .. 12 * y] the contributed amount is
    [n * c] and the value is the future value of an ordinary annuity,
    [c * ((1 + m) ^ n - 1) / m] with [m] the monthly rate. *)
Theorem sip_returns_closed_form (c r : R) (y : Z) :
  0 < r -> (0 <= y)%Z ->
  exists df, calculate_sip_returns c r y = Ok df /\
    forall n : nat, (1 <= n)%nat -> (Z.of_nat n <= 12 * y)%Z ->
      SipFrame.Total_Investment df !! (n - 1)%nat = Some (INR n * c) /\
      SipFrame.Investment_Value df !! (n - 1)%nat =
        Some (c * ((1 + monthly_rate_of r) ^ n - 1) / monthly_rate_of r).
Proof.
  intros Hr Hy. eexists. split; [by apply calculate_sip_returns_Ok|].
  cbn [SipFrame.Total_Investment SipFrame.Investment_Value].
  intros n Hn1 Hn2. rewrite !lookup_map_seq_0 by lia.
  pose proof (monthly_rate_of_pos r Hr) as Hm.
  replace n with (S (n - 1)) at 2 4 by lia.
  split; f_equal.
  - apply sip_total_closed.
  - rewrite <- sip_value_closed. field. lra.
Qed.

Lemma sip_returns_closed_form_witness :
  exists df, calculate_sip_returns 1000 12 1 = Ok df /\
    SipFrame.Total_Investment df !! 11%nat = Some (INR 12 * 1000).
Proof.
  destruct (sip_returns_closed_form 1000 12 1) as (df & Hdf & Hn); [lra | lia |].
  exists df. split; [exact Hdf|]. apply (Hn 12%nat); lia.
Defined.

(** X2.  For a contribution [c >= 0] and a rate [r >= 0] the value of the
    SIP series is never below the contributed amount, and for [c > 0],
    [r > 0] it is strictly above it from the second period on. *)
Theorem sip_value_covers_contributed (c r : R) (y : Z) :
  0 <= c -> 0 <= r -> (0 <= y)%Z ->
  exists df, calculate_sip_returns c r y = Ok df /\
    forall (i : nat) (a v : R),
      SipFrame.Total_Investment df !! i = Some a ->
      SipFrame.Investment_Value df !! i = Some v ->
      a <= v /\ (0 < c -> 0 < r -> (1 <= i)%nat -> a < v).
Proof.
  intros Hc Hr Hy. eexists. split; [by apply calculate_sip_returns_Ok|].
  cbn [SipFrame.Total_Investment SipFrame.Investment_Value].
  intros i a v Ha Hv. apply lookup_map_seq_0_Some in Ha, Hv. subst a v.
  split.
  - apply sip_value_ge_total; [done | by apply monthly_rate_of_nonneg].
  - intros Hc' Hr' Hi. apply sip_value_gt_total; [done | | done].
    by apply monthly_rate_of_pos.
Qed.

Lemma sip_value_covers_contributed_witness :
  exists df, calculate_sip_returns 1000 12 1 = Ok df /\
    forall a v : R,
      SipFrame.Total_Investment df !! 11%nat = Some a ->
      SipFrame.Investment_Value df !! 11%nat = Some v -> a < v.
Proof.
  destruct (sip_value_covers_contributed 1000 12 1) as (df & Hdf & Hrow);
    [lra | lra | lia |].
  exists df. split; [exact Hdf|]. intros a v Ha Hv.
  apply (Hrow 11%nat a v Ha Hv); [lra | lra | lia].
Defined.

(** X3.  A higher annual rate never lowers the SIP series: for [c >= 0] and
    [0 <= r1 <= r2] the value under [r2] is at least the value under [r1] at
    every period, and strictly larger from the second period on when
    [c > 0] and [r1 < r2]. *)
Theorem sip_value_monotone_in_rate (c r1 r2 : R) (y : Z) :
  0 <= c -> 0 <= r1 -> r1 <= r2 -> (0 <= y)%Z ->
  exists df1 df2,
    calculate_sip_returns c r1 y = Ok df1 /\
    calculate_sip_returns c r2 y = Ok df2 /\
    forall (i : nat) (v1 v2 : R),
      SipFrame.Investment_Value df1 !! i = Some v1 ->
      SipFrame.Investment_Value df2 !! i = Some v2 ->
      v1 <= v2 /\ (0 < c -> r1 < r2 -> (1 <= i)%nat -> v1 < v2).
Proof.
  intros Hc H1 H12 Hy. eexists _, _.
  split; [by apply calculate_sip_returns_Ok|].
  split; [by apply calculate_sip_returns_Ok|].
  cbn [SipFrame.Investment_Value].
  intros i v1 v2 Hv1 Hv2. apply lookup_map_seq_0_Some in Hv1, Hv2. subst v1 v2.
  split.
  - apply sip_value_mono_rate;
      [done | by apply monthly_rate_of_nonneg | by apply monthly_rate_of_mono].
  - intros Hc' Hlt Hi. apply sip_value_strict_mono_rate;
      [done | by apply monthly_rate_of_nonneg
      | by apply monthly_rate_of_strict_mono | done].
Qed.

Lemma sip_value_monotone_in_rate_witness :
  exists df1 df2,
    calculate_sip_returns 1000 8 5 = Ok df1 /\
    calculate_sip_returns 1000 12 5 = Ok df2 /\
    forall v1 v2 : R,
      SipFrame.Investment_Value df1 !! 59%nat = Some v1 ->
      SipFrame.Investment_Value df2 !! 59%nat = Some v2 -> v1 < v2.
Proof.
  destruct (sip_value_monotone_in_rate 1000 8 12 5)
    as (df1 & df2 & H1 & H2 & Hrow); [lra | lra | lra | lia |].
  exists df1, df2. split; [exact H1|]. split; [exact H2|].
  intros v1 v2 Hv1 Hv2. apply (Hrow 59%nat v1 v2 Hv1 Hv2); [lra | lra | lia].
Defined.

(** X4.  [calculate_sip_returns] and [calculate_step_up_sip] raise
    [ValueError] exactly for a negative duration, and for a duration of 0
    they return frames without rows. *)
Theorem sip_duration_edge (c s r : R) (y : Z) :
  (calculate_sip_returns c r y = Raise ValueError <-> (y < 0)%Z) /\
  (calculate_step_up_sip c s r y = Raise ValueError <-> (y < 0)%Z) /\
  calculate_sip_returns c r 0 = Ok (SipFrame.mk [] [] []) /\
  calculate_step_up_sip c s r 0 = Ok (StepUpFrame.mk [] [] [] []).
Proof.
  assert (Hneg : (y < 0)%Z -> np_zeros (y * 12) = Raise ValueError).
  { intros Hy. unfold np_zeros. destruct (Z.ltb_spec (y * 12) 0); [done | lia]. }
  repeat split.
  - intros Hraise. destruct (Z.lt_ge_cases y 0) as [|Hy]; [done|].
    rewrite calculate_sip_returns_Ok in Hraise by done. discriminate.
  - intros Hy. unfold calculate_sip_returns. by rewrite Hneg.
  - intros Hraise. destruct (Z.lt_ge_cases y 0) as [|Hy]; [done|].
    rewrite calculate_step_up_sip_Ok in Hraise by done. discriminate.
  - intros Hy. unfold calculate_step_up_sip. by rewrite Hneg.
Qed.

(** X5.  [calculate_lumpsum_returns] never raises: it returns a frame of
    [max 0 (y + 1)] rows, which is empty for a negative duration. *)
Theorem lumpsum_never_raises (p r : R) (y : Z) :
  exists df, calculate_lumpsum_returns p r y = Ok df /\
    length (LumpsumFrame.Year df) = Z.to_nat (y + 1) /\
    length (LumpsumFrame.Investment_Value df) = Z.to_nat (y + 1) /\
    ((y < 0)%Z -> df = LumpsumFrame.mk [] []).
Proof.
  eexists. split; [apply calculate_lumpsum_returns_Ok|].
  cbn [LumpsumFrame.Year LumpsumFrame.Investment_Value].
  rewrite length_seqZ, length_map, length_seq. repeat split.
  intros Hy. rewrite seqZ_nil by lia.
  replace (Z.to_nat (y + 1)) with 0%nat by lia. done.
Qed.

(** The compound monthly rate is at most the simple division by 12. *)
Lemma monthly_rate_of_le_simple (r : R) :
  0 <= r -> monthly_rate_of r <= r / 12 / 100.
Proof.
  intros [Hr | <-]; [|rewrite monthly_rate_of_0; lra].
  unfold monthly_rate_of.
  assert (Hx : 0 < r / 12 / 100) by lra.
  assert (H12 : INR 12 = 12) by (simpl; lra).
  pose proof (Rpower_twelfth_pow (1 + r / 12 / 100) ltac:(lra)) as Hroot.
  pose proof (poly 12 (r / 12 / 100) Hx) as Hp.
  rewrite H12 in Hp.
  set (P := (1 + r / 12 / 100) ^ 12) in *.
  assert (Hle : Rpower (1 + r / 100) (1 / 12) <= Rpower P (1 / 12))
    by (apply Rle_Rpower_l; lra).
  lra.
Qed.

(** X6.  The monthly rate is the compound conversion of the annual rate:
    for [r >= 0], twelve months at the monthly rate give exactly [r] percent,
    and the monthly rate lies between 0 and the simple division [r / 12]
    percent. *)
Theorem monthly_rate_bounds (r : R) :
  0 <= r ->
  (1 + monthly_rate_of r) ^ 12 = 1 + r / 100 /\
  0 <= monthly_rate_of r /\
  monthly_rate_of r <= r / 12 / 100.
Proof.
  intros Hr. split; [by apply monthly_rate_compounds|].
  split; [by apply monthly_rate_of_nonneg | by apply monthly_rate_of_le_simple].
Qed.

Lemma monthly_rate_bounds_witness :
  (1 + monthly_rate_of 12) ^ 12 = 1 + 12 / 100 /\ monthly_rate_of 12 <= 12 / 12 / 100.
Proof.
  destruct (monthly_rate_bounds 12) as (H12 & _ & Hup); [lra|].
  split; [exact H12 | exact Hup].
Defined.

(** X7.  Annual and monthly compounding agree at whole years: for [r >= 0]
    the lump-sum value of year [k] is the principal grown for [12 * k] months
    at the monthly rate of the SIP simulator. *)
Theorem lumpsum_is_monthly_compounding (p r : R) (y : Z) :
  0 <= r ->
  exists df, calculate_lumpsum_returns p r y = Ok df /\
    forall k : nat, (Z.of_nat k <= y)%Z ->
      LumpsumFrame.Investment_Value df !! k =
      Some (p * (1 + monthly_rate_of r) ^ (12 * k)).
Proof.
  intros Hr. eexists. split; [apply calculate_lumpsum_returns_Ok|].
  cbn [LumpsumFrame.Investment_Value]. intros k Hk.
  rewrite lookup_map_seq_0 by lia. unfold lumpsum_value.
  rewrite pow_mult, monthly_rate_compounds by done.
  by rewrite <- pow_powerRZ.
Qed.

Lemma lumpsum_is_monthly_compounding_witness :
  exists df, calculate_lumpsum_returns 100000 10 5 = Ok df /\
    LumpsumFrame.Investment_Value df !! 5%nat =
    Some (100000 * (1 + monthly_rate_of 10) ^ 60).
Proof.
  destruct (lumpsum_is_monthly_compounding 100000 10 5) as (df & Hdf & Hk); [lra|].
  exists df. split; [exact Hdf|]. apply (Hk 5%nat). lia.
Defined.

Lemma lumpsum_value_mono (p r : R) (i j : nat) :
  0 <= p -> 0 <= r -> (i <= j)%nat -> lumpsum_value p r i <= lumpsum_value p r j.
Proof.
  intros Hp Hr Hij. unfold lumpsum_value. rewrite <- !pow_powerRZ.
  apply Rmult_le_compat_l; [done|]. apply Rle_pow; [lra | done].
Qed.

(** X8.  For a principal [p >= 0] and a rate [r >= 0] the lump-sum series
    never falls: a later year holds at least the value of an earlier one,
    and every year holds at least the principal. *)
Theorem lumpsum_never_falls (p r : R) (y : Z) :
  0 <= p -> 0 <= r ->
  exists df, calculate_lumpsum_returns p r y = Ok df /\
    forall (i j : nat) (a b : R), (i <= j)%nat ->
      LumpsumFrame.Investment_Value df !! i = Some a ->
      LumpsumFrame.Investment_Value df !! j = Some b ->
      p <= a /\ a <= b.
Proof.
  intros Hp Hr. eexists. split; [apply calculate_lumpsum_returns_Ok|].
  cbn [LumpsumFrame.Investment_Value]. intros i j a b Hij Ha Hb.
  apply lookup_map_seq_0_Some in Ha, Hb. subst a b. split.
  - pose proof (lumpsum_value_mono p r 0 i Hp Hr ltac:(lia)) as H0.
    unfold lumpsum_value in H0 at 1. simpl in H0. lra.
  - by apply lumpsum_value_mono.
Qed.

Lemma lumpsum_never_falls_witness :
  exists df, calculate_lumpsum_returns 100000 10 5 = Ok df /\
    forall a b : R,
      LumpsumFrame.Investment_Value df !! 2%nat = Some a ->
      LumpsumFrame.Investment_Value df !! 5%nat = Some b -> a <= b.
Proof.
  destruct (lumpsum_never_falls 100000 10 5) as (df & Hdf & Hrow); [lra | lra |].
  exists df. split; [exact Hdf|]. intros a b Ha Hb.
  apply (Hrow 2%nat 5%nat a b); [lia | exact Ha | exact Hb].
Defined.

(** ** Further properties of the backsolver *)

(** X9.  With a duration of 0 years the backsolver raises
    [ZeroDivisionError] for every target and every rate [r >= 0]: either the
    monthly rate is 0, or the annuity factor [((1 + m) ** 0 - 1) / m] is. *)
Theorem goal_sip_zero_duration_raises (T r : R) :
  0 <= r -> calculate_goal_based_sip T r 0 = Raise ZeroDivisionError.
Proof.
  intros Hr. unfold calculate_goal_based_sip.
  change (0 * 12)%Z with 0%Z. change (powerRZ _ 0) with 1.
  destruct Hr as [Hr | <-].
  - pose proof (monthly_rate_of_pos r Hr) as Hm.
    rewrite py_div_Ok by lra. rewrite bind_Ok.
    replace ((1 - 1) / monthly_rate_of r) with 0 by (field; lra).
    by rewrite py_div_zero.
  - by rewrite monthly_rate_of_0, py_div_zero.
Qed.

Lemma goal_sip_zero_duration_raises_witness :
  calculate_goal_based_sip 1000000 12 0 = Raise ZeroDivisionError.
Proof. apply goal_sip_zero_duration_raises. lra. Defined.

Lemma annuity_factor_ge_months (m : R) (n : nat) :
  0 < m -> INR n <= ((1 + m) ^ n - 1) / m.
Proof.
  intros Hm. pose proof (poly n m Hm) as Hp.
  apply (Rmult_le_reg_r m); [done|].
  replace (((1 + m) ^ n - 1) / m * m) with ((1 + m) ^ n - 1) by (field; lra).
  lra.
Qed.

Lemma INR_months (y : Z) : (0 <= y)%Z -> INR (Z.to_nat (y * 12)) = IZR y * 12.
Proof.
  intros Hy. rewrite INR_IZR_INZ, Z2Nat.id by lia.
  by rewrite mult_IZR.
Qed.

(** X10.  For a rate [r > 0] and [y >= 1] years the backsolver returns; its
    result is positive for a positive target and proportional to the target:
    scaling the target by [k] scales the required contribution by [k]. *)
Theorem goal_sip_positive_and_linear (T r : R) (y : Z) :
  0 < r -> (1 <= y)%Z ->
  exists c, calculate_goal_based_sip T r y = Ok c /\
    (0 < T -> 0 < c) /\
    forall k : R, calculate_goal_based_sip (k * T) r y = Ok (k * c).
Proof.
  intros Hr Hy. eexists. split; [by apply calculate_goal_based_sip_Ok|].
  pose proof (monthly_rate_of_pos r Hr) as Hm.
  set (m := monthly_rate_of r) in *. set (n := Z.to_nat (y * 12)).
  assert (Hg : 1 < (1 + m) ^ n) by (apply pow_gt_1; [lra | subst n; lia]).
  assert (HA : 0 < ((1 + m) ^ n - 1) / m) by (apply Rdiv_lt_0_compat; lra).
  split.
  - intros HT. apply Rdiv_lt_0_compat; [|lra].
    by apply Rdiv_lt_0_compat.
  - intros k. rewrite calculate_goal_based_sip_Ok by done.
    fold m n. f_equal. field. lra.
Qed.

Lemma goal_sip_positive_and_linear_witness :
  exists c, calculate_goal_based_sip 1000000 12 10 = Ok c /\ 0 < c.
Proof.
  destruct (goal_sip_positive_and_linear 1000000 12 10) as (c & Hc & Hpos & _);
    [lra | lia |].
  exists c. split; [exact Hc | apply Hpos; lra].
Defined.

(** The contributions the backsolver asks for add up to less than the
    target. *)
Lemma goal_total_below_target (T r : R) (y : Z) (c : R) :
  0 < T -> 0 < r -> (1 <= y)%Z ->
  calculate_goal_based_sip T r y = Ok c ->
  0 < c /\ c * 12 * IZR y < T.
Proof.
  intros HT Hr Hy Hc. rewrite calculate_goal_based_sip_Ok in Hc by done.
  injection Hc as <-.
  pose proof (monthly_rate_of_pos r Hr) as Hm.
  set (m := monthly_rate_of r) in *. set (n := Z.to_nat (y * 12)).
  pose proof (annuity_factor_ge_months m n Hm) as Hn.
  assert (Hmonths : INR n = IZR y * 12) by (apply INR_months; lia).
  assert (Hn1 : 1 <= INR n).
  { change 1 with (INR 1). apply le_INR. subst n. lia. }
  set (A := ((1 + m) ^ n - 1) / m) in *.
  set (c := T / A / (1 + m)).
  assert (HcA : c * (1 + m) * A = T) by (subst c; field; lra).
  assert (Hcpos : 0 < c).
  { subst c. apply Rdiv_lt_0_compat; [|lra]. apply Rdiv_lt_0_compat; lra. }
  split; [done|].
  replace (c * 12 * IZR y) with (c * INR n) by (rewrite Hmonths; lra).
  assert (c * INR n <= c * A) by (apply Rmult_le_compat_l; lra).
  assert (0 < c * A) by (apply Rmult_lt_0_compat; lra).
  assert (c * A * 1 < c * A * (1 + m)) by (apply Rmult_lt_compat_l; lra).
  lra.
Qed.

Lemma powerRZ_ge_1 (x : R) (y : Z) : 1 <= x -> (0 <= y)%Z -> 1 <= powerRZ x y.
Proof.
  intros Hx Hy. rewrite <- (Z2Nat.id y) by done.
  rewrite <- pow_powerRZ. by apply pow_R1_Rle.
Qed.

(** X11.  Goal tab, for a target [T > 0], a rate [r > 0], an inflation rate
    [i >= 0] and [y >= 1] years: the tab computes without error; the
    inflation-adjusted target is at least [T]; the monthly SIP is positive;
    the total investment [monthly_sip * 12 * y] stays below the adjusted
    target, so the wealth gained shown is positive; and the plotted series
    has [12 * y] rows. *)
Theorem goal_tab_wealth_gained_positive (T r : R) (y : Z) (i : R) :
  0 < T -> 0 < r -> 0 <= i -> (1 <= y)%Z ->
  exists gs, goal_tab_summary T r y i = Ok gs /\
    T <= gs_inflation_adjusted_target gs /\
    0 < gs_monthly_sip gs /\
    gs_total_investment gs < gs_inflation_adjusted_target gs /\
    0 < gs_wealth_gained gs /\
    Z.of_nat (length (SipFrame.Investment_Value (gs_sip_results gs))) = (12 * y)%Z.
Proof.
  intros HT Hr Hi Hy. unfold goal_tab_summary.
  pose proof (powerRZ_ge_1 (1 + i / 100) y ltac:(lra) ltac:(lia)) as Hinfl.
  set (T' := T * powerRZ (1 + i / 100) y).
  assert (HT' : T <= T') by (subst T'; nra).
  pose proof (calculate_goal_based_sip_Ok T' r y Hr Hy) as Hc.
  destruct (goal_total_below_target T' r y _ ltac:(lra) Hr Hy Hc) as [Hcpos Htot].
  rewrite Hc, bind_Ok.
  rewrite calculate_sip_returns_Ok by lia. rewrite bind_Ok.
  eexists. split; [reflexivity|].
  cbn [gs_inflation_adjusted_target gs_monthly_sip gs_total_investment
       gs_wealth_gained gs_sip_results SipFrame.Investment_Value].
  rewrite length_map, length_seq.
  repeat split; try lra. lia.
Qed.

Lemma goal_tab_wealth_gained_positive_witness :
  exists gs, goal_tab_summary 1000000 12 10 6 = Ok gs /\ 0 < gs_wealth_gained gs.
Proof.
  destruct (goal_tab_wealth_gained_positive 1000000 12 10 6)
    as (gs & Hgs & _ & _ & _ & Hw & _); [lra | lra | lra | lia |].
  exists gs. split; [exact Hgs | exact Hw].
Defined.

(** ** The SIP tab *)

Lemma real_return_rate_Ok (r i : R) :
  0 <= i -> real_return_rate r i = Ok ((1 + r / 100) / (1 + i / 100) - 1).
Proof. intros Hi. unfold real_return_rate. by rewrite py_div_Ok by lra. Qed.

(** X12.  SIP tab: when the expected return equals the inflation rate (both
    [>= 0], a setting the two sliders allow) and the duration is at least a
    year, the real return rate is 0 and computing the inflation-adjusted
    final value raises [ZeroDivisionError]. *)
Theorem sip_tab_equal_rates_raises (c r : R) (y : Z) :
  0 <= r -> (1 <= y)%Z ->
  real_return_rate r r = Ok 0 /\
  sip_tab_summary c r y r = Raise ZeroDivisionError.
Proof.
  intros Hr Hy.
  assert (Hreal : real_return_rate r r = Ok 0).
  { rewrite real_return_rate_Ok by done. f_equal. field. lra. }
  split; [exact Hreal|].
  unfold sip_tab_summary.
  rewrite calculate_sip_returns_Ok by lia. rewrite bind_Ok.
  cbn [SipFrame.Investment_Value].
  rewrite iloc_last_map_seq_0 by lia. rewrite bind_Ok.
  rewrite Hreal, bind_Ok. by rewrite py_div_zero.
Qed.

Lemma sip_tab_equal_rates_raises_witness :
  sip_tab_summary 1000 6 10 6 = Raise ZeroDivisionError.
Proof.
  destruct (sip_tab_equal_rates_raises 1000 6 10) as [_ H]; [lra | lia |].
  exact H.
Defined.

(** X13.  SIP tab, for [c >= 0], rates [r >= 0] and [i >= 0] that differ, and
    [y >= 1] years: the summary is computed without error; the total invested
    it shows, [c * y * 12], is the last entry of the series' contributed
    column; the final value is the last entry of the value column; and the
    wealth gained is not negative. *)
Theorem sip_tab_summary_consistent (c r : R) (y : Z) (i : R) :
  0 <= c -> 0 <= r -> 0 <= i -> r <> i -> (1 <= y)%Z ->
  exists df ss,
    calculate_sip_returns c r y = Ok df /\
    sip_tab_summary c r y i = Ok ss /\
    last (SipFrame.Total_Investment df) = Some (ss_total_invested ss) /\
    last (SipFrame.Investment_Value df) = Some (ss_final_value ss) /\
    0 <= ss_wealth_gained ss /\
    ss_real_return_rate ss = (1 + r / 100) / (1 + i / 100) - 1.
Proof.
  intros Hc Hr Hi Hri Hy. eexists _, _.
  split; [apply calculate_sip_returns_Ok; lia|].
  unfold sip_tab_summary.
  rewrite calculate_sip_returns_Ok by lia. rewrite bind_Ok.
  cbn [SipFrame.Investment_Value SipFrame.Total_Investment].
  rewrite iloc_last_map_seq_0 by lia. rewrite bind_Ok.
  rewrite real_return_rate_Ok by done. rewrite bind_Ok.
  rewrite py_div_Ok.
  2:{ intros Hzero. apply Hri.
      assert (Heq : (1 + r / 100) / (1 + i / 100) = 1) by lra.
      apply (f_equal (fun x => x * (1 + i / 100))) in Heq.
      replace ((1 + r / 100) / (1 + i / 100) * (1 + i / 100))
        with (1 + r / 100) in Heq by (field; lra).
      lra. }
  rewrite bind_Ok. split; [reflexivity|].
  cbn [ss_total_invested ss_final_value ss_wealth_gained ss_real_return_rate].
  rewrite !last_map_seq_0 by lia.
  set (n := Z.to_nat (y * 12)).
  assert (Htot : sip_total c (n - 1) = c * IZR y * 12).
  { rewrite sip_total_closed. replace (S (n - 1)) with n by (subst n; lia).
    subst n. rewrite INR_months by lia. lra. }
  repeat split.
  - by rewrite Htot.
  - rewrite <- Htot.
    pose proof (sip_value_ge_total c (monthly_rate_of r) (n - 1) Hc
                  (monthly_rate_of_nonneg r Hr)). lra.
Qed.

Lemma sip_tab_summary_consistent_witness :
  exists ss, sip_tab_summary 1000 12 10 6 = Ok ss /\
    ss_total_invested ss = 1000 * 10 * 12 /\ 0 <= ss_wealth_gained ss.
Proof.
  destruct (sip_tab_summary_consistent 1000 12 10 6)
    as (df & ss & _ & Hss & _ & _ & Hw & _); [lra | lra | lra | lra | lia |].
  exists ss. split; [exact Hss|]. split; [|exact Hw].
  unfold sip_tab_summary in Hss.
  destruct (calculate_sip_returns 1000 12 10) as [df'|]; [|discriminate].
  cbn [bind] in Hss.
  destruct (iloc_last (SipFrame.Investment_Value df')); [|discriminate].
  cbn [bind] in Hss.
  destruct (real_return_rate 12 6); [|discriminate].
  cbn [bind] in Hss.
  destruct (py_div _ _); [|discriminate].
  cbn [bind] in Hss. injection Hss as <-. reflexivity.
Defined.

(** X14.  The SIP and step-up tabs read the last row of the series, so for a
    duration of 0 years, where the series has no rows, both summaries raise
    [IndexError]. *)
Theorem tab_summaries_zero_duration_raise (c s r i : R) :
  sip_tab_summary c r 0 i = Raise IndexError /\
  step_up_tab_summary c s r 0 = Raise IndexError.
Proof. split; reflexivity. Qed.

(** A loop that appends one computed value per item. *)
Lemma for_each_append {I : Type} (body : I -> list R -> result (list R))
    (f : I -> R) (items : list I) (acc : list R) :
  (forall i acc', i ∈ items -> body i acc' = Ok (acc' ++ [f i])) ->
  for_each body items acc = Ok (acc ++ map f items).
Proof.
  revert acc. induction items as [|i items IH]; intros acc Hbody; simpl.
  - by rewrite app_nil_r.
  - rewrite Hbody by left. rewrite bind_Ok.
    rewrite IH by (intros; apply Hbody; by right).
    by rewrite <- app_assoc.
Qed.

Lemma iloc_map_seq_0 (f : nat -> R) (n i : nat) :
  (i < n)%nat -> iloc (map f (seq 0 n)) i = Ok (f i).
Proof. intros Hi. unfold iloc. by rewrite lookup_map_seq_0. Qed.

(** The inflation-adjusted line of the SIP tab over a series [g 0 .. g (n-1)]. *)
Lemma sip_inflation_adj_values_Ok (g : nat -> R) (i : R) (y : Z) :
  sip_inflation_adj_values (map g (seq 0 (Z.to_nat (y * 12)))) i y =
  Ok (map (fun month => g (month - 1)%nat /
                        Rpower (1 + i / 100) (INR month / 12))
        (seq 1 (Z.to_nat (y * 12)))).
Proof.
  unfold sip_inflation_adj_values.
  rewrite (for_each_append _
    (fun month => g (month - 1)%nat / Rpower (1 + i / 100) (INR month / 12)));
    [done|].
  intros month acc Hin. apply elem_of_seq in Hin.
  unfold sip_inflation_adj_body.
  rewrite iloc_map_seq_0 by lia. by rewrite bind_Ok.
Qed.

Lemma Rpower_ge_1 (x e : R) : 1 <= x -> 0 <= e -> 1 <= Rpower x e.
Proof.
  intros Hx He. unfold Rpower. rewrite <- exp_0.
  destruct He as [He | <-]; [|rewrite Rmult_0_l; lra].
  destruct Hx as [Hx | <-]; [|rewrite ln_1, Rmult_0_r; lra].
  left. apply exp_increasing. apply Rmult_lt_0_compat; [done|].
  rewrite <- ln_1. apply ln_increasing; lra.
Qed.

Lemma Rpower_1_l (e : R) : Rpower 1 e = 1.
Proof. unfold Rpower. by rewrite ln_1, Rmult_0_r, exp_0. Qed.

(** X15.  SIP tab, inflation-adjusted line, for [c >= 0], [r >= 0], an
    inflation rate [i >= 0] and [y >= 0] years: the loop reads every row
    without error and yields one point per period; the point of period [n]
    is the value of that period divided by [(1 + i/100) ** (n / 12)], so it
    never exceeds the nominal value; and with zero inflation the line is the
    value column itself. *)
Theorem sip_inflation_line (c r i : R) (y : Z) :
  0 <= c -> 0 <= r -> 0 <= i -> (0 <= y)%Z ->
  exists df adj,
    calculate_sip_returns c r y = Ok df /\
    sip_inflation_adj_values (SipFrame.Investment_Value df) i y = Ok adj /\
    length adj = length (SipFrame.Investment_Value df) /\
    (forall (n : nat) (v : R), (1 <= n)%nat ->
       SipFrame.Investment_Value df !! (n - 1)%nat = Some v ->
       adj !! (n - 1)%nat = Some (v / Rpower (1 + i / 100) (INR n / 12)) /\
       v / Rpower (1 + i / 100) (INR n / 12) <= v) /\
    (i = 0 -> adj = SipFrame.Investment_Value df).
Proof.
  intros Hc Hr Hi Hy. eexists _, _.
  split; [by apply calculate_sip_returns_Ok|].
  cbn [SipFrame.Investment_Value].
  split; [apply sip_inflation_adj_values_Ok|].
  set (n := Z.to_nat (y * 12)). set (m := monthly_rate_of r).
  assert (Hlook : forall k : nat, (k < n)%nat ->
            map (fun month => sip_value c m (month - 1) /
                              Rpower (1 + i / 100) (INR month / 12))
              (seq 1 n) !! k =
            Some (sip_value c m k / Rpower (1 + i / 100) (INR (S k) / 12))).
  { intros k Hk.
    change (map ?f (seq 1 n)) with (f <$> seq 1 n).
    rewrite list_lookup_fmap, lookup_seq_lt by done.
    change (1 + k)%nat with (S k). cbn [option_map fmap option_fmap].
    by rewrite Nat.sub_succ, Nat.sub_0_r. }
  split; [by rewrite !length_map, !length_seq|]. split.
  - intros k v Hk Hv.
    assert (Hkn : (k - 1 < n)%nat).
    { apply lookup_lt_Some in Hv. by rewrite length_map, length_seq in Hv. }
    apply lookup_map_seq_0_Some in Hv. subst v.
    rewrite Hlook by done. replace (S (k - 1)) with k by lia.
    split; [done|].
    assert (Hf : 1 <= Rpower (1 + i / 100) (INR k / 12)).
    { apply Rpower_ge_1; [lra|]. pose proof (pos_INR k). lra. }
    assert (Hv : 0 <= sip_value c m (k - 1)).
    { pose proof (sip_value_ge_total c m (k - 1) Hc (monthly_rate_of_nonneg r Hr)).
      pose proof (sip_total_nonneg c (k - 1) Hc). lra. }
    set (F := Rpower (1 + i / 100) (INR k / 12)) in *.
    apply (Rmult_le_reg_r F); [lra|].
    replace (sip_value c m (k - 1) / F * F) with (sip_value c m (k - 1))
      by (field; lra).
    assert (sip_value c m (k - 1) * 1 <= sip_value c m (k - 1) * F)
      by (apply Rmult_le_compat_l; lra).
    lra.
  - intros ->. apply list_eq. intros k.
    destruct (decide (k < n)%nat) as [Hk|Hk].
    + rewrite Hlook, lookup_map_seq_0 by done.
      replace (1 + 0 / 100) with 1 by lra. rewrite Rpower_1_l.
      f_equal. field.
    + rewrite !lookup_ge_None_2; [done | |];
        rewrite length_map, length_seq; lia.
Qed.

Lemma sip_inflation_line_witness :
  exists df adj,
    calculate_sip_returns 1000 12 10 = Ok df /\
    sip_inflation_adj_values (SipFrame.Investment_Value df) 6 10 = Ok adj /\
    length adj = length (SipFrame.Investment_Value df).
Proof.
  destruct (sip_inflation_line 1000 12 6 10) as (df & adj & Hdf & Hadj & Hlen & _);
    [lra | lra | lra | lia |].
  exists df, adj. auto.
Defined.

(** ** The lump-sum tab *)

Lemma pow_div_distr (a b : R) (k : nat) : (a / b) ^ k = a ^ k / b ^ k.
Proof. unfold Rdiv. by rewrite Rpow_mult_distr, pow_inv. Qed.

Lemma lumpsum_inflation_adj_values_Ok (g : nat -> R) (i : R) (y : Z) :
  lumpsum_inflation_adj_values (map g (seq 0 (Z.to_nat (y + 1)))) i y =
  Ok (map (fun year => g year / (1 + i / 100) ^ year) (seq 0 (Z.to_nat (y + 1)))).
Proof.
  unfold lumpsum_inflation_adj_values, py_range.
  rewrite (for_each_append _ (fun year => g year / (1 + i / 100) ^ year));
    [done|].
  intros year acc Hin. apply elem_of_seq in Hin.
  unfold lumpsum_inflation_adj_body.
  rewrite iloc_map_seq_0 by lia. by rewrite bind_Ok.
Qed.

(** The deflated lump-sum value of year [k] is the principal grown at the
    real return rate. *)
Lemma lumpsum_deflated_is_real_growth (p r i : R) (k : nat) :
  0 <= i ->
  lumpsum_value p r k / (1 + i / 100) ^ k =
  lumpsum_value p (((1 + r / 100) / (1 + i / 100) - 1) * 100) k.
Proof.
  intros Hi. unfold lumpsum_value. rewrite <- !pow_powerRZ.
  replace (1 + ((1 + r / 100) / (1 + i / 100) - 1) * 100 / 100)
    with ((1 + r / 100) / (1 + i / 100)) by (field; lra).
  rewrite pow_div_distr. field. apply pow_nonzero. lra.
Qed.

(** X16.  Lump-sum tab, for [p >= 0], [r >= 0], an inflation rate [i >= 0]
    and [y >= 0] years: the summary and the inflation-adjusted line are
    computed without error; the line, obtained by dividing each year's value
    by [(1 + i/100) ** year], is exactly the lump-sum series at the real
    return rate [real_return_rate * 100]; its last point is the
    inflation-adjusted final value of the summary; and the wealth gained is
    not negative. *)
Theorem lumpsum_tab_real_rate (p r i : R) (y : Z) :
  0 <= p -> 0 <= r -> 0 <= i -> (0 <= y)%Z ->
  exists df ls adj real_df,
    calculate_lumpsum_returns p r y = Ok df /\
    lumpsum_tab_summary p r y i = Ok ls /\
    lumpsum_inflation_adj_values (LumpsumFrame.Investment_Value df) i y = Ok adj /\
    calculate_lumpsum_returns p (ls_real_return_rate ls * 100) y = Ok real_df /\
    adj = LumpsumFrame.Investment_Value real_df /\
    last adj = Some (ls_inflation_adj_final ls) /\
    last (LumpsumFrame.Investment_Value df) = Some (ls_final_value ls) /\
    0 <= ls_wealth_gained ls.
Proof.
  intros Hp Hr Hi Hy. eexists _, _, _, _.
  split; [apply calculate_lumpsum_returns_Ok|].
  cbn [LumpsumFrame.Investment_Value].
  assert (HN : (1 <= Z.to_nat (y + 1))%nat) by lia.
  split.
  { unfold lumpsum_tab_summary.
    rewrite calculate_lumpsum_returns_Ok, bind_Ok.
    cbn [LumpsumFrame.Investment_Value].
    rewrite iloc_last_map_seq_0 by done. rewrite bind_Ok.
    rewrite real_return_rate_Ok by done. rewrite bind_Ok. reflexivity. }
  cbn [ls_real_return_rate ls_inflation_adj_final ls_final_value ls_wealth_gained].
  split; [apply lumpsum_inflation_adj_values_Ok|].
  split; [apply calculate_lumpsum_returns_Ok|].
  cbn [LumpsumFrame.Investment_Value].
  assert (Hmap :
    map (fun year => lumpsum_value p r year / (1 + i / 100) ^ year)
      (seq 0 (Z.to_nat (y + 1))) =
    map (lumpsum_value p (((1 + r / 100) / (1 + i / 100) - 1) * 100))
      (seq 0 (Z.to_nat (y + 1)))).
  { apply map_ext. intros k. by apply lumpsum_deflated_is_real_growth. }
  split; [exact Hmap|]. split; [|split].
  - rewrite Hmap, last_map_seq_0 by done. f_equal.
    unfold lumpsum_value.
    replace (Z.of_nat (Z.to_nat (y + 1) - 1)) with y by lia.
    do 2 f_equal. field. lra.
  - by rewrite last_map_seq_0 by done.
  - pose proof (lumpsum_value_mono p r 0 (Z.to_nat (y + 1) - 1) Hp Hr ltac:(lia))
      as Hmono.
    unfold lumpsum_value in Hmono at 1. simpl in Hmono. lra.
Qed.

Lemma lumpsum_tab_real_rate_witness :
  exists ls, lumpsum_tab_summary 100000 12 10 6 = Ok ls /\ 0 <= ls_wealth_gained ls.
Proof.
  destruct (lumpsum_tab_real_rate 100000 12 6 10)
    as (df & ls & adj & real_df & _ & Hls & _ & _ & _ & _ & _ & Hw);
    [lra | lra | lra | lia |].
  exists ls. split; [exact Hls | exact Hw].
Defined.

(** ** Step-up against regular SIP *)

Lemma stepup_sip_ge_initial (c0 s : R) (i : nat) :
  0 <= c0 -> 0 <= s -> c0 <= stepup_sip c0 s i.
Proof.
  intros Hc Hs. unfold stepup_sip.
  pose proof (pow_R1_Rle (1 + s / 100) (i / 12) ltac:(lra)).
  rewrite <- (Rmult_1_r c0) at 1. by apply Rmult_le_compat_l.
Qed.

Lemma stepup_total_ge_sip_total (c0 s : R) (i : nat) :
  0 <= c0 -> 0 <= s -> sip_total c0 i <= stepup_total c0 s i.
Proof.
  intros Hc Hs. induction i as [|i IH].
  - simpl. rewrite stepup_sip_0. lra.
  - change (sip_total c0 (S i)) with (sip_total c0 i + c0).
    change (stepup_total c0 s (S i))
      with (stepup_total c0 s i + stepup_sip c0 s (S i)).
    pose proof (stepup_sip_ge_initial c0 s (S i) Hc Hs). lra.
Qed.

Lemma stepup_value_ge_sip_value (c0 s m : R) (i : nat) :
  0 <= c0 -> 0 <= s -> 0 <= m -> sip_value c0 m i <= stepup_value c0 s m i.
Proof.
  intros Hc Hs Hm. induction i as [|i IH].
  - simpl. rewrite stepup_sip_0. lra.
  - change (sip_value c0 m (S i)) with (sip_value c0 m i * (1 + m) + c0).
    change (stepup_value c0 s m (S i))
      with (stepup_value c0 s m i * (1 + m) + stepup_sip c0 s (S i)).
    pose proof (stepup_sip_ge_initial c0 s (S i) Hc Hs).
    assert (sip_value c0 m i * (1 + m) <= stepup_value c0 s m i * (1 + m))
      by (apply Rmult_le_compat_r; lra).
    lra.
Qed.

Lemma stepup_total_nonneg (c0 s : R) (i : nat) :
  0 <= c0 -> 0 <= s -> 0 <= stepup_total c0 s i.
Proof.
  intros Hc Hs.
  pose proof (stepup_total_ge_sip_total c0 s i Hc Hs).
  pose proof (sip_total_nonneg c0 i Hc). lra.
Qed.

Lemma stepup_value_ge_total (c0 s m : R) (i : nat) :
  0 <= c0 -> 0 <= s -> 0 <= m -> stepup_total c0 s i <= stepup_value c0 s m i.
Proof.
  intros Hc Hs Hm. induction i as [|i IH]; [simpl; lra|].
  change (stepup_total c0 s (S i))
    with (stepup_total c0 s i + stepup_sip c0 s (S i)).
  change (stepup_value c0 s m (S i))
    with (stepup_value c0 s m i * (1 + m) + stepup_sip c0 s (S i)).
  pose proof (stepup_total_nonneg c0 s i Hc Hs).
  assert (0 <= stepup_value c0 s m i * m) by (apply Rmult_le_pos; lra).
  lra.
Qed.

(** X17.  For [c0 >= 0], a step-up rate [s >= 0], a rate [r >= 0] and
    [y >= 0] years, the step-up series dominates the regular SIP series of the
    same initial contribution period by period, both in contributed amount
    and in value, and its value is never below its own contributed amount. *)
Theorem step_up_dominates_regular (c0 s r : R) (y : Z) :
  0 <= c0 -> 0 <= s -> 0 <= r -> (0 <= y)%Z ->
  exists su df,
    calculate_step_up_sip c0 s r y = Ok su /\
    calculate_sip_returns c0 r y = Ok df /\
    (forall (i : nat) (a a' : R),
       SipFrame.Total_Investment df !! i = Some a ->
       StepUpFrame.Total_Investment su !! i = Some a' -> a <= a') /\
    (forall (i : nat) (v v' : R),
       SipFrame.Investment_Value df !! i = Some v ->
       StepUpFrame.Investment_Value su !! i = Some v' -> v <= v') /\
    (forall (i : nat) (a' v' : R),
       StepUpFrame.Total_Investment su !! i = Some a' ->
       StepUpFrame.Investment_Value su !! i = Some v' -> a' <= v').
Proof.
  intros Hc Hs Hr Hy. eexists _, _.
  split; [by apply calculate_step_up_sip_Ok|].
  split; [by apply calculate_sip_returns_Ok|].
  cbn [SipFrame.Total_Investment SipFrame.Investment_Value
       StepUpFrame.Total_Investment StepUpFrame.Investment_Value].
  pose proof (monthly_rate_of_nonneg r Hr) as Hm.
  split; [|split]; intros i x x' Hx Hx';
    apply lookup_map_seq_0_Some in Hx, Hx'; subst x x'.
  - by apply stepup_total_ge_sip_total.
  - by apply stepup_value_ge_sip_value.
  - by apply stepup_value_ge_total.
Qed.

Lemma step_up_dominates_regular_witness :
  exists su df,
    calculate_step_up_sip 1000 10 12 15 = Ok su /\
    calculate_sip_returns 1000 12 15 = Ok df /\
    forall v v' : R,
      SipFrame.Investment_Value df !! 179%nat = Some v ->
      StepUpFrame.Investment_Value su !! 179%nat = Some v' -> v <= v'.
Proof.
  destruct (step_up_dominates_regular 1000 10 12 15)
    as (su & df & Hsu & Hdf & _ & Hval & _); [lra | lra | lra | lia |].
  exists su, df. split; [exact Hsu|]. split; [exact Hdf|].
  intros v v'. apply Hval.
Defined.

(** X18.  Step-up tab, for [c0 >= 0], [s >= 0], [r >= 0] and [y >= 1] years:
    the summary is computed without error; the regular SIP has invested
    [c0 * 12 * y]; the step-up plan has invested at least as much and ends at
    a value at least that of the regular SIP, so the difference shown as
    "more than regular SIP" is not negative; and the wealth gained is not
    negative. *)
Theorem step_up_tab_comparison (c0 s r : R) (y : Z) :
  0 <= c0 -> 0 <= s -> 0 <= r -> (1 <= y)%Z ->
  exists sus, step_up_tab_summary c0 s r y = Ok sus /\
    sus_regular_total_invested sus = c0 * 12 * IZR y /\
    sus_regular_total_invested sus <= sus_total_invested sus /\
    sus_regular_final_value sus <= sus_final_value sus /\
    0 <= sus_wealth_gained sus.
Proof.
  intros Hc Hs Hr Hy. unfold step_up_tab_summary.
  rewrite calculate_step_up_sip_Ok by lia. rewrite bind_Ok.
  rewrite calculate_sip_returns_Ok by lia. rewrite bind_Ok.
  cbn [SipFrame.Total_Investment SipFrame.Investment_Value
       StepUpFrame.Total_Investment StepUpFrame.Investment_Value].
  rewrite !iloc_last_map_seq_0 by lia. rewrite !bind_Ok.
  eexists. split; [reflexivity|].
  cbn [sus_regular_total_invested sus_total_invested sus_regular_final_value
       sus_final_value sus_wealth_gained].
  set (n := Z.to_nat (y * 12)).
  pose proof (monthly_rate_of_nonneg r Hr) as Hm.
  split; [|split; [|split]].
  - rewrite sip_total_closed. replace (S (n - 1)) with n by (subst n; lia).
    subst n. rewrite INR_months by lia. lra.
  - by apply stepup_total_ge_sip_total.
  - by apply stepup_value_ge_sip_value.
  - pose proof (stepup_value_ge_total c0 s (monthly_rate_of r) (n - 1) Hc Hs Hm).
    lra.
Qed.

Lemma step_up_tab_comparison_witness :
  exists sus, step_up_tab_summary 1000 10 12 15 = Ok sus /\
    sus_regular_final_value sus <= sus_final_value sus.
Proof.
  destruct (step_up_tab_comparison 1000 10 12 15) as (sus & Hsus & _ & _ & Hv & _);
    [lra | lra | lra | lia |].
  exists sus. split; [exact Hsus | exact Hv].
Defined.

(** ** The rate comparison *)

Lemma compare_body_Ok (c : R) (y : Z) (rate : R) (results : list comparison_row) :
  (1 <= y)%Z ->
  compare_body c y rate results =
  Ok (results ++
      [ComparisonRow rate
         (sip_value c (monthly_rate_of rate) (Z.to_nat (y * 12) - 1))
         (c * IZR y * 12)
         (sip_value c (monthly_rate_of rate) (Z.to_nat (y * 12) - 1)
          - c * IZR y * 12)]).
Proof.
  intros Hy. unfold compare_body.
  rewrite calculate_sip_returns_Ok by lia. rewrite bind_Ok.
  cbn [SipFrame.Investment_Value].
  rewrite iloc_last_map_seq_0 by lia. by rewrite bind_Ok.
Qed.

(** X19.  The rate comparison, for a monthly amount [c > 0] and [y >= 1]
    years: it returns three rows, for 8%, 12% and 15% in that order, all with
    the same amount invested [c * y * 12]; the final value grows strictly
    with the rate, and already at 8% it exceeds the amount invested, so every
    wealth gained is positive. *)
Theorem compare_investment_growth_increasing (c : R) (y : Z) :
  0 < c -> (1 <= y)%Z ->
  exists f8 f12 f15 : R,
    let t := c * IZR y * 12 in
    compare_investment_growth c y =
    Ok [ComparisonRow 8 f8 t (f8 - t);
        ComparisonRow 12 f12 t (f12 - t);
        ComparisonRow 15 f15 t (f15 - t)] /\
    t < f8 /\ f8 < f12 /\ f12 < f15.
Proof.
  intros Hc Hy. eexists _, _, _. cbn zeta. split.
  - unfold compare_investment_growth. cbn [for_each].
    rewrite compare_body_Ok by done. rewrite bind_Ok.
    rewrite compare_body_Ok by done. rewrite bind_Ok.
    rewrite compare_body_Ok by done. rewrite bind_Ok.
    reflexivity.
  - set (n := Z.to_nat (y * 12)).
    assert (Hn : (1 <= n - 1)%nat) by (subst n; lia).
    assert (Htot : sip_total c (n - 1) = c * IZR y * 12).
    { rewrite sip_total_closed. replace (S (n - 1)) with n by lia.
      subst n. rewrite INR_months by lia. lra. }
    rewrite <- Htot. split; [|split].
    + apply sip_value_gt_total; [done | apply monthly_rate_of_pos; lra | done].
    + apply sip_value_strict_mono_rate;
        [done | apply monthly_rate_of_nonneg; lra
        | apply monthly_rate_of_strict_mono; lra | done].
    + apply sip_value_strict_mono_rate;
        [done | apply monthly_rate_of_nonneg; lra
        | apply monthly_rate_of_strict_mono; lra | done].
Qed.

Lemma compare_investment_growth_increasing_witness :
  exists f8 f12 f15 : R,
    compare_investment_growth 1000 20 =
    Ok [ComparisonRow 8 f8 (1000 * 20 * 12) (f8 - 1000 * 20 * 12);
        ComparisonRow 12 f12 (1000 * 20 * 12) (f12 - 1000 * 20 * 12);
        ComparisonRow 15 f15 (1000 * 20 * 12) (f15 - 1000 * 20 * 12)] /\
    f8 < f15.
Proof.
  destruct (compare_investment_growth_increasing 1000 20)
    as (f8 & f12 & f15 & Hrows & _ & H1 & H2); [lra | lia |].
  exists f8, f12, f15. split; [exact Hrows | lra].
Defined.

(** ** The yearly table of the SIP tab *)

Lemma zip_fmap_same {A B C : Type} (f : A -> B) (g : A -> C) (l : list A) :
  zip (f <$> l) (g <$> l) = (fun x => (f x, g x)) <$> l.
Proof. induction l as [|x l IH]; [done|]. csimpl. f_equal. exact IH. Qed.

(** Among the months [1 .. 12 * y] the multiples of 12 are the year ends. *)
Lemma filter_year_ends (y : nat) :
  filter (fun k : nat => ((Z.of_nat k + 1) mod 12 = 0)%Z) (seq 0 (12 * y)) =
  (fun j => (12 * j + 11)%nat) <$> seq 0 y.
Proof.
  induction y as [|y IH]; [done|].
  replace (12 * S y)%nat with (12 * y + 12)%nat by lia.
  rewrite seq_app, filter_app, IH, (seq_S y 0), fmap_app.
  f_equal. change (0 + 12 * y)%nat with (12 * y)%nat.
  change (0 + y)%nat with y.
  set (b := (12 * y)%nat). cbn [seq].
  assert (Hb : (Z.of_nat b = 12 * Z.of_nat y)%Z) by (subst b; lia).
  repeat (rewrite filter_cons_False
            by (rewrite ?Nat2Z.inj_succ, Hb; intros Hmod;
                apply Z.mod_divide in Hmod; [|done];
                destruct Hmod as [q Hq]; lia)).
  rewrite filter_cons_True.
  - rewrite filter_nil. cbn [fmap list_fmap]. do 2 f_equal. subst b. lia.
  - rewrite ?Nat2Z.inj_succ, Hb. apply Z.mod_divide; [done|].
    exists (Z.of_nat y + 1)%Z. lia.
Qed.

Lemma filter_fmap_list {A B : Type} (f : A -> B) (P : B -> Prop)
    `{!forall b, Decision (P b)} (l : list A) :
  filter P (f <$> l) = f <$> filter (fun a => P (f a)) l.
Proof.
  induction l as [|a l IH]; [done|]. csimpl.
  rewrite !filter_cons. destruct (decide (P (f a))); csimpl; by rewrite IH.
Qed.

(** The table computed from the frame the simulator returns. *)
Lemma sip_yearly_data_Ok (c m : R) (Y : nat) :
  sip_yearly_data
    (SipFrame.mk (seqZ 1 (Z.of_nat (12 * Y)))
       (map (sip_total c) (seq 0 (12 * Y)))
       (map (sip_value c m) (seq 0 (12 * Y)))) =
  (fun j : nat =>
     YearlyRow.mk ((Z.of_nat (12 * j + 11) + 1) / 12)%Z
       (sip_total c (12 * j + 11)) (sip_value c m (12 * j + 11))
       (sip_value c m (12 * j + 11) - sip_total c (12 * j + 11))
       ((sip_value c m (12 * j + 11) - sip_total c (12 * j + 11))
        / sip_total c (12 * j + 11) * 100)) <$> seq 0 Y.
Proof.
  unfold sip_yearly_data.
  cbn [SipFrame.Month SipFrame.Total_Investment SipFrame.Investment_Value].
  unfold seqZ. rewrite Nat2Z.id.
  change (map (sip_total c) (seq 0 (12 * Y)))
    with (sip_total c <$> seq 0 (12 * Y)).
  change (map (sip_value c m) (seq 0 (12 * Y)))
    with (sip_value c m <$> seq 0 (12 * Y)).
  rewrite !zip_fmap_same, filter_fmap_list.
  cbn [fst]. rewrite filter_year_ends.
  rewrite <- !list_fmap_compose. done.
Qed.

(** X20.  SIP tab, detailed table, for [c >= 0], [r >= 0] and [y >= 0]
    years: selecting the rows whose month is a multiple of 12 gives exactly
    one row per year; the row of year [k] is numbered [k], holds a
    contributed amount of [12 * k * c] and the value of month [12 * k], and
    its wealth gained is not negative. *)
Theorem sip_yearly_table (c r : R) (y : Z) :
  0 <= c -> 0 <= r -> (0 <= y)%Z ->
  exists df, calculate_sip_returns c r y = Ok df /\
    Z.of_nat (length (sip_yearly_data df)) = y /\
    forall k : nat, (1 <= k)%nat -> (Z.of_nat k <= y)%Z ->
      exists row, sip_yearly_data df !! (k - 1)%nat = Some row /\
        YearlyRow.Year row = Z.of_nat k /\
        YearlyRow.Total_Investment row = 12 * INR k * c /\
        SipFrame.Investment_Value df !! (12 * k - 1)%nat =
          Some (YearlyRow.Investment_Value row) /\
        0 <= YearlyRow.Wealth_Gained row.
Proof.
  intros Hc Hr Hy. eexists. split; [by apply calculate_sip_returns_Ok|].
  assert (Hn : Z.to_nat (y * 12) = (12 * Z.to_nat y)%nat) by lia.
  assert (Hz : (y * 12)%Z = Z.of_nat (12 * Z.to_nat y)) by lia.
  rewrite Hn, Hz, sip_yearly_data_Ok.
  cbn [SipFrame.Investment_Value].
  split; [rewrite length_fmap, length_seq; lia|].
  intros k Hk1 Hk2. eexists. split.
  { rewrite list_lookup_fmap, lookup_seq_lt by lia. reflexivity. }
  cbn [YearlyRow.Year YearlyRow.Total_Investment YearlyRow.Investment_Value
       YearlyRow.Wealth_Gained].
  replace (12 * (0 + (k - 1)) + 11)%nat with (12 * k - 1)%nat by lia.
  split; [|split; [|split]].
  - replace (Z.of_nat (12 * k - 1) + 1)%Z with (Z.of_nat k * 12)%Z by lia.
    by rewrite Z.div_mul.
  - rewrite sip_total_closed. replace (S (12 * k - 1)) with (12 * k)%nat by lia.
    rewrite mult_INR. simpl (INR 12). lra.
  - apply lookup_map_seq_0. lia.
  - pose proof (sip_value_ge_total c (monthly_rate_of r) (12 * k - 1) Hc
                  (monthly_rate_of_nonneg r Hr)). lra.
Qed.

Lemma sip_yearly_table_witness :
  exists df, calculate_sip_returns 1000 12 10 = Ok df /\
    Z.of_nat (length (sip_yearly_data df)) = 10%Z.
Proof.
  destruct (sip_yearly_table 1000 12 10) as (df & Hdf & Hlen & _);
    [lra | lra | lia |].
  exists df. split; [exact Hdf | exact Hlen].
Defined.

(** ** Contributions, real return and the adjusted final values *)

Lemma stepup_sip_mono (c0 s : R) (i j : nat) :
  0 <= c0 -> 0 <= s -> (i <= j)%nat -> stepup_sip c0 s i <= stepup_sip c0 s j.
Proof.
  intros Hc Hs Hij. unfold stepup_sip.
  apply Rmult_le_compat_l; [done|].
  apply Rle_pow; [lra|]. by apply Nat.Div0.div_le_mono.
Qed.

(** X21.  For [c0 >= 0] and a step-up rate [s >= 0] the monthly contribution
    of the step-up series never decreases from one period to a later one,
    and it never falls below the initial contribution. *)
Theorem step_up_contribution_never_decreases (c0 s r : R) (y : Z) :
  0 <= c0 -> 0 <= s -> (0 <= y)%Z ->
  exists su, calculate_step_up_sip c0 s r y = Ok su /\
    forall (i j : nat) (a b : R), (i <= j)%nat ->
      StepUpFrame.Monthly_SIP su !! i = Some a ->
      StepUpFrame.Monthly_SIP su !! j = Some b ->
      c0 <= a /\ a <= b.
Proof.
  intros Hc Hs Hy. eexists. split; [by apply calculate_step_up_sip_Ok|].
  cbn [StepUpFrame.Monthly_SIP]. intros i j a b Hij Ha Hb.
  apply lookup_map_seq_0_Some in Ha, Hb. subst a b.
  split; [by apply stepup_sip_ge_initial | by apply stepup_sip_mono].
Qed.

Lemma step_up_contribution_never_decreases_witness :
  exists su, calculate_step_up_sip 1000 10 12 15 = Ok su /\
    forall a b : R,
      StepUpFrame.Monthly_SIP su !! 11%nat = Some a ->
      StepUpFrame.Monthly_SIP su !! 12%nat = Some b -> a <= b.
Proof.
  destruct (step_up_contribution_never_decreases 1000 10 12 15)
    as (su & Hsu & Hrow); [lra | lra | lia |].
  exists su. split; [exact Hsu|]. intros a b Ha Hb.
  apply (Hrow 11%nat 12%nat a b); [lia | exact Ha | exact Hb].
Defined.

Lemma real_return_value (r i : R) :
  0 <= i -> (1 + r / 100) / (1 + i / 100) - 1 = (r - i) / (100 + i).
Proof. intros Hi. field. lra. Qed.

(** X22.  For an inflation rate [i >= 0] the real return rate is computed
    without error and equals [(r - i) / (100 + i)]: it is positive exactly
    when the nominal rate exceeds inflation, zero exactly when they are
    equal, and for [r >= 0] never above the nominal rate [r / 100]. *)
Theorem real_return_sign (r i : R) :
  0 <= i ->
  exists v, real_return_rate r i = Ok v /\
    v = (r - i) / (100 + i) /\
    (0 < v <-> i < r) /\
    (v = 0 <-> r = i) /\
    (0 <= r -> v <= r / 100).
Proof.
  intros Hi. eexists. split; [by apply real_return_rate_Ok|].
  rewrite real_return_value by done.
  assert (Hd : 0 < 100 + i) by lra.
  assert (Hinv : 0 < / (100 + i)) by (by apply Rinv_0_lt_compat).
  unfold Rdiv. repeat split.
  - intros Hv. destruct (Rlt_le_dec i r) as [|Hle]; [done|]. exfalso.
    assert ((r - i) * / (100 + i) <= 0 * / (100 + i))
      by (apply Rmult_le_compat_r; lra).
    lra.
  - intros Hlt. apply Rmult_lt_0_compat; lra.
  - intros Hv. apply Rmult_integral in Hv. destruct Hv; lra.
  - intros ->. rewrite Rminus_diag. lra.
  - intros Hr. apply (Rmult_le_reg_r (100 + i)); [done|].
    rewrite Rmult_assoc, Rinv_l by lra.
    assert (0 <= r * i) by (by apply Rmult_le_pos). lra.
Qed.

Lemma real_return_sign_witness :
  exists v, real_return_rate 12 6 = Ok v /\ 0 < v.
Proof.
  destruct (real_return_sign 12 6) as (v & Hv & _ & Hpos & _); [lra|].
  exists v. split; [exact Hv | apply Hpos; lra].
Defined.

(** X23.  SIP tab, for [c > 0], [y >= 1] and rates [r > i >= 0]: the
    summary is computed without error; its real return rate is
    [real = (1 + r/100) / (1 + i/100) - 1], and its inflation-adjusted final
    value is the annuity-due form [c * (((1 + real) ^ (12 * y) - 1) / real)
    * (1 + real)], which compounds that annual rate once per month over
    [12 * y] months.  Hence, when [r / 12 / 100] is not above the real
    return rate (as at 12% return and 6% inflation), the inflation-adjusted
    value shown is larger than the nominal final value. *)
Theorem sip_tab_adjusted_exceeds_nominal (c r i : R) (y : Z) :
  0 < c -> 0 <= i -> i < r -> (1 <= y)%Z ->
  exists ss, sip_tab_summary c r y i = Ok ss /\
    let real := (1 + r / 100) / (1 + i / 100) - 1 in
    ss_real_return_rate ss = real /\
    ss_inflation_adj_final ss =
      c * (((1 + real) ^ Z.to_nat (12 * y) - 1) / real) * (1 + real) /\
    (r / 12 / 100 <= real ->
     ss_final_value ss < ss_inflation_adj_final ss).
Proof.
  intros Hc Hi Hir Hy. cbn zeta.
  set (real := (1 + r / 100) / (1 + i / 100) - 1) in *.
  assert (Hreal : 0 < real).
  { subst real. rewrite real_return_value by done.
    apply Rdiv_lt_0_compat; lra. }
  pose proof (monthly_rate_of_le_simple r ltac:(lra)) as Hm.
  pose proof (monthly_rate_of_nonneg r ltac:(lra)) as Hm0.
  unfold sip_tab_summary.
  rewrite calculate_sip_returns_Ok by lia. rewrite bind_Ok.
  cbn [SipFrame.Investment_Value].
  rewrite iloc_last_map_seq_0 by lia. rewrite bind_Ok.
  rewrite real_return_rate_Ok by done. fold real. rewrite bind_Ok.
  rewrite py_div_Ok by lra. rewrite bind_Ok.
  eexists. split; [reflexivity|].
  cbn [ss_final_value ss_inflation_adj_final ss_real_return_rate].
  set (n := Z.to_nat (y * 12)).
  assert (Hpow : powerRZ (1 + real) (y * 12) = (1 + real) ^ S (n - 1)).
  { rewrite pow_powerRZ. f_equal. subst n. lia. }
  rewrite Hpow.
  split; [reflexivity|]. split.
  { replace (Z.to_nat (12 * y)) with (S (n - 1)) by (subst n; lia). reflexivity. }
  intros Hsimple.
  assert (Hann : c * (((1 + real) ^ S (n - 1) - 1) / real) =
                 sip_value c real (n - 1)).
  { apply (Rmult_eq_reg_r real); [|lra].
    rewrite sip_value_closed. field. lra. }
  rewrite Hann.
  pose proof (sip_value_mono_rate c (monthly_rate_of r) real (n - 1)
                ltac:(lra) Hm0 ltac:(lra)) as Hmono.
  pose proof (sip_value_ge_total c (monthly_rate_of r) (n - 1) ltac:(lra) Hm0).
  pose proof (sip_total_ge_first c (n - 1) ltac:(lra)).
  assert (sip_value c real (n - 1) * 1 < sip_value c real (n - 1) * (1 + real))
    by (apply Rmult_lt_compat_l; lra).
  lra.
Qed.

Lemma sip_tab_adjusted_exceeds_nominal_witness :
  exists ss, sip_tab_summary 1000 12 10 6 = Ok ss /\
    ss_final_value ss < ss_inflation_adj_final ss.
Proof.
  destruct (sip_tab_adjusted_exceeds_nominal 1000 12 6 10)
    as (ss & Hss & _ & _ & Hgt); [lra | lra | lra | lia |].
  exists ss. split; [exact Hss | apply Hgt; lra].
Defined.

(** X24.  Lump-sum tab, for [p >= 0], [r >= 0], [i >= 0] and [y >= 0] years:
    the inflation-adjusted final value never exceeds the nominal final
    value, and equals it at zero inflation. *)
Theorem lumpsum_tab_adjusted_below_nominal (p r i : R) (y : Z) :
  0 <= p -> 0 <= r -> 0 <= i -> (0 <= y)%Z ->
  exists ls, lumpsum_tab_summary p r y i = Ok ls /\
    ls_inflation_adj_final ls <= ls_final_value ls /\
    (i = 0 -> ls_inflation_adj_final ls = ls_final_value ls).
Proof.
  intros Hp Hr Hi Hy. unfold lumpsum_tab_summary.
  rewrite calculate_lumpsum_returns_Ok, bind_Ok.
  cbn [LumpsumFrame.Investment_Value].
  rewrite iloc_last_map_seq_0 by lia. rewrite bind_Ok.
  rewrite real_return_rate_Ok by done. rewrite bind_Ok.
  eexists. split; [reflexivity|].
  cbn [ls_inflation_adj_final ls_final_value].
  unfold lumpsum_value.
  replace (Z.of_nat (Z.to_nat (y + 1) - 1)) with y by lia.
  replace (1 + ((1 + r / 100) / (1 + i / 100) - 1))
    with ((1 + r / 100) / (1 + i / 100)) by lra.
  rewrite <- (Z2Nat.id y) by done. rewrite <- !pow_powerRZ.
  split.
  - apply Rmult_le_compat_l; [done|]. apply pow_incr. split.
    + unfold Rdiv. apply Rmult_le_pos; [lra|].
      left. apply Rinv_0_lt_compat. lra.
    + apply (Rmult_le_reg_r (1 + i / 100)); [lra|].
      replace ((1 + r / 100) / (1 + i / 100) * (1 + i / 100))
        with (1 + r / 100) by (field; lra).
      assert (0 <= r / 100 * (i / 100)) by (apply Rmult_le_pos; lra).
      lra.
  - intros ->. do 2 f_equal. field.
Qed.

Lemma lumpsum_tab_adjusted_below_nominal_witness :
  exists ls, lumpsum_tab_summary 100000 12 10 6 = Ok ls /\
    ls_inflation_adj_final ls <= ls_final_value ls.
Proof.
  destruct (lumpsum_tab_adjusted_below_nominal 100000 12 6 10)
    as (ls & Hls & Hle & _); [lra | lra | lra | lia |].
  exists ls. split; [exact Hls | exact Hle].
Defined.
